(** * sshx terminal view adapter: [src/lib/ui/XTerm.svelte]

    A shallow embedding of the script part of the XTerm component and of
    the mouse handlers its template installs.  The embedded engine
    (xterm.js) is an external library: an engine instance is represented
    by the calls the component makes on it, and the engine's internal
    handlers, which [patchXTerm] replaces, are arbitrary functions stored
    in a method table indexed by class and property name. *)

From Stdlib Require Import ZArith Lia.
From stdpp Require Import gmap strings list.

(** ** JavaScript completions *)

Inductive js_error := TypeError.

Inductive completion (A : Type) :=
| Normal (a : A)
| Throw (e : js_error).
Arguments Normal {A} a.
Arguments Throw {A} e.

(** * The suppression patch ([patchXTerm], module script) *)
Module Patch.

(** What a handler can return: [() => {}] returns [undefined]. *)
Inductive jsval := undefined | jsbool (b : bool).

(** The argument object xterm passes to a CSI handler; [params] is its
    [Int32Array] of parameters. *)
Record IParams := { params : list Z }.

(** The part of an engine instance a handler acts on: the [_data]
    buffer that [unhook] resets, and the strings the engine has sent
    back through [triggerDataEvent] (the replies the patch is there to
    suppress). *)
Record internals := { _data : list Z; replies : list string }.

Definition handler : Type := IParams → internals → completion (internals * jsval).

Abbreviation classid := nat.

(** Module-level state: the [patched] flag of the closure, and the
    prototypes of the engine's classes.  [methods !! (C, name)] is
    [C.prototype[name]]; an absent key is [undefined]. *)
Record World := {
  patched : bool;
  methods : gmap (classid * string) handler;
}.

(** The objects [patchXTerm] walks through: [term._core],
    [term._core._inputHandler] and their [constructor]s.  A member
    that an engine version does not have is [None]. *)
Record InputHandlerObj := { ih_constructor : classid }.
Record CoreObj := {
  core_constructor : classid;
  _inputHandler : option InputHandlerObj;
}.
Record TermObj := { _core : option CoreObj }.

(** An instance of the engine as the supported xterm versions build
    it: both internal objects are present. *)
Definition mkTerm (Terminal InputHandler : classid) : TermObj :=
  {| _core := Some {| core_constructor := Terminal;
                      _inputHandler := Some {| ih_constructor := InputHandler |} |} |}.

(** *** A state and exception monad over [World]

    A statement runs on the module state and either completes or
    throws; the state changes made before a throw persist. *)
Definition M (A : Type) : Type := World → World * completion A.

#[export] Instance M_ret : MRet M := λ A a w, (w, Normal a).

#[export] Instance M_bind : MBind M :=
  λ A B k c w,
    match c w with
    | (w', Normal a) => k a w'
    | (w', Throw e) => (w', Throw e)
    end.

Definition read_patched : M bool := λ w, (w, Normal (patched w)).

Definition write_patched (b : bool) : M unit :=
  λ w, ({| patched := b; methods := methods w |}, Normal tt).

(** Reading a property of a member that is [undefined] throws. *)
Definition member {A} (o : option A) : M A :=
  λ w, match o with
       | Some a => (w, Normal a)
       | None => (w, Throw TypeError)
       end.

(** [C.prototype.name = h] *)
Definition assign (C : classid) (name : string) (h : handler) : M unit :=
  λ w, ({| patched := patched w; methods := <[(C, name) := h]> (methods w) |}, Normal tt).

(** [C.prototype.name], [undefined] when the class has no such method. *)
Definition read (C : classid) (name : string) : M (option handler) :=
  λ w, (w, Normal (methods w !! (C, name))).

(** [f.call(this, params)]; calling [undefined] throws. *)
Definition call (f : option handler) (this : internals) (p : IParams)
  : completion (internals * jsval) :=
  match f with
  | Some h => h p this
  | None => Throw TypeError
  end.

(** *** The replacement handlers *)

(** [() => {}] *)
Definition noop : handler := λ _ this, Normal (this, undefined).

(** [function () { this._data = new Uint32Array(0); return true; }] *)
Definition unhook : handler :=
  λ _ this, Normal ({| _data := []; replies := replies this |}, jsbool true).

(** [function (params) { if (params.params[0] === 18) return true;
     else return windowOptions.call(this, params); }] *)
Definition windowOptions (original : option handler) : handler :=
  λ p this,
    if decide (params p !! 0%nat = Some 18%Z)
    then Normal (this, jsbool true)
    else call original this p.

Definition patchXTerm (term : TermObj) : M unit :=
  p ← read_patched;
  if p : bool then mret tt
  else
    write_patched true;;
    core ← member (_core term);
    let Terminal := core_constructor core in
    ih ← member (_inputHandler core);
    let InputHandler := ih_constructor ih in
    assign Terminal "_handleColorEvent" noop;;
    assign Terminal "_reportFocus" noop;;
    assign InputHandler "unhook" unhook;;
    assign InputHandler "sendDeviceAttributesPrimary" noop;;
    assign InputHandler "sendDeviceAttributesSecondary" noop;;
    assign InputHandler "deviceStatus" noop;;
    assign InputHandler "deviceStatusPrivate" noop;;
    original ← read InputHandler "windowOptions";
    assign InputHandler "windowOptions" (windowOptions original).

(** *** Method dispatch on an instance

    [obj.name(params)] looks [name] up on the prototype of the class
    of [obj], so a replacement installed on the class is seen by every
    instance. *)
Definition invoke (C : classid) (name : string) (p : IParams) (this : internals)
    (w : World) : completion (internals * jsval) :=
  call (methods w !! (C, name)) this p.

(** [term._core.name(params)] *)
Definition invoke_core (term : TermObj) (name : string) (p : IParams)
    (this : internals) (w : World) : completion (internals * jsval) :=
  match _core term with
  | Some core => invoke (core_constructor core) name p this w
  | None => Throw TypeError
  end.

(** [term._core._inputHandler.name(params)] *)
Definition invoke_inputHandler (term : TermObj) (name : string) (p : IParams)
    (this : internals) (w : World) : completion (internals * jsval) :=
  match _core term with
  | Some core =>
      match _inputHandler core with
      | Some ih => invoke (ih_constructor ih) name p this w
      | None => Throw TypeError
      end
  | None => Throw TypeError
  end.

(** The handler names the patch expects to find on the engine: those
    it replaces by [() => {}] on the two classes, and the two it
    replaces by a function of their own. *)
Definition terminal_handlers : list string :=
  ["_handleColorEvent"; "_reportFocus"].
Definition silenced_inputHandler_handlers : list string :=
  ["sendDeviceAttributesPrimary"; "sendDeviceAttributesSecondary";
   "deviceStatus"; "deviceStatusPrivate"].
Definition inputHandler_handlers : list string :=
  "unhook" :: "windowOptions" :: silenced_inputHandler_handlers.

(** *** Two engines to run the patch on *)

(** A handler of the unpatched engine that answers its query: the
    answer goes out through [triggerDataEvent]. *)
Definition replying (answer : string) : handler :=
  λ _ this,
    Normal ({| _data := _data this; replies := replies this ++ [answer] |}, jsbool true).

(** An engine that has every handler the patch names, with class 0
    for [Terminal] and class 1 for [InputHandler]. *)
Definition stock : World :=
  {| patched := false;
     methods := list_to_map
       [ ((0, "_handleColorEvent"), replying "]10;rgb:ffff/ffff/ffff");
         ((0, "_reportFocus"), replying "[I");
         ((1, "sendDeviceAttributesPrimary"), replying "[?1;2c");
         ((1, "sendDeviceAttributesSecondary"), replying "[>0;276;0c");
         ((1, "deviceStatus"), replying "[0n");
         ((1, "deviceStatusPrivate"), replying "[?1;1R");
         ((1, "windowOptions"), replying "[8;24;80t") ] |}.

(** An engine version that has none of them. *)
Definition bare : World := {| patched := false; methods := ∅ |}.

(** *** What the patch writes, and what it needs *)

(** The prototype entries [patchXTerm] assigns on the classes
    [Terminal] and [InputHandler]. *)
Definition replaced_keys (Terminal InputHandler : classid) : list (classid * string) :=
  ((λ name, (Terminal, name)) <$> terminal_handlers)
  ++ ((λ name, (InputHandler, name)) <$> inputHandler_handlers).

(** Whether [term._core] and [term._core._inputHandler] are there. *)
Definition has_internals (term : TermObj) : bool :=
  match _core term with
  | Some core =>
      match _inputHandler core with
      | Some _ => true
      | None => false
      end
  | None => false
  end.

End Patch.

(** * Deduplicated font loading ([waitForFonts], module script) *)
Module FontGate.

Inductive font_state := initial | loading | loaded.

Abbreviation caller := nat.

(** The places where a call of the async function can be: suspended
    at one of its three [await]s, or returned. *)
Inductive point :=
| AwaitImport     (* await import("fontfaceobserver") *)
| AwaitLoad       (* await new FontFaceObserver("Fira Code VF").load() *)
| AwaitWaitlist   (* await new Promise((resolve) => ...) *)
| Returned.

(** The closure's variables [state] and [waitlist] (a [resolve]
    callback is named by the call that pushed it), the calls made so
    far, and the observable effects: the font loads started, named by
    the call that started them, and the warnings logged. *)
Record gate := {
  state : font_state;
  waitlist : list caller;
  calls : gmap caller point;
  loads : list caller;
  warnings : nat;
}.

Definition init : gate :=
  {| state := initial; waitlist := []; calls := ∅; loads := []; warnings := 0 |}.

Definition at_point (c : caller) (p : point) (g : gate) : gate :=
  {| state := state g; waitlist := waitlist g; calls := <[c := p]> (calls g);
     loads := loads g; warnings := warnings g |}.

Definition set_state (s : font_state) (g : gate) : gate :=
  {| state := s; waitlist := waitlist g; calls := calls g;
     loads := loads g; warnings := warnings g |}.

(** [waitlist.push(resolve)] *)
Definition push (c : caller) (g : gate) : gate :=
  {| state := state g; waitlist := waitlist g ++ [c]; calls := calls g;
     loads := loads g; warnings := warnings g |}.

(** [new FontFaceObserver("Fira Code VF").load()] *)
Definition start_load (c : caller) (g : gate) : gate :=
  {| state := state g; waitlist := waitlist g; calls := calls g;
     loads := loads g ++ [c]; warnings := warnings g |}.

(** [console.warn("Could not load terminal font", error)] *)
Definition warn (g : gate) : gate :=
  {| state := state g; waitlist := waitlist g; calls := calls g;
     loads := loads g; warnings := S (warnings g) |}.

(** [resolve()]: the call awaiting that promise goes on and returns. *)
Definition resolve (c : caller) (g : gate) : gate := at_point c Returned g.

(** What the event loop can do next with the gate. *)
Inductive event :=
| Call (c : caller)                 (* c calls waitForFonts() *)
| Imported (c : caller)             (* the import c awaits is fulfilled *)
| Settled (c : caller) (ok : bool). (* the load c awaits is fulfilled or rejected *)

(** From the call to the first [await] (or to the return). *)
Definition enter (c : caller) (g : gate) : gate :=
  match state g with
  | loaded => at_point c Returned g
  | initial => at_point c AwaitImport g
  | loading =>
      (* the executor of the new promise runs at once *)
      match state g with
      | loaded => resolve c g
      | _ => at_point c AwaitWaitlist (push c g)
      end
  end.

(** From [await import(...)] to [await ....load()]. *)
Definition after_import (c : caller) (g : gate) : gate :=
  at_point c AwaitLoad (start_load c (set_state loading g)).

(** From [await ....load()] to the end of the function. *)
Definition after_load (c : caller) (ok : bool) (g : gate) : gate :=
  let g := if ok then g else warn g in
  let g := set_state loaded g in
  let g := foldl (λ g fn, resolve fn g) g (waitlist g) in
  at_point c Returned g.

(** One turn of the event loop; [None] when the event cannot happen
    (a call is made once, and resumes only where it is suspended). *)
Definition step (e : event) (g : gate) : option gate :=
  match e with
  | Call c =>
      match calls g !! c with
      | None => Some (enter c g)
      | Some _ => None
      end
  | Imported c =>
      match calls g !! c with
      | Some AwaitImport => Some (after_import c g)
      | _ => None
      end
  | Settled c ok =>
      match calls g !! c with
      | Some AwaitLoad => Some (after_load c ok g)
      | _ => None
      end
  end.

Fixpoint run (schedule : list event) (g : gate) : option gate :=
  match schedule with
  | [] => Some g
  | e :: rest =>
      match step e g with
      | Some g' => run rest g'
      | None => None
      end
  end.

#[export] Instance event_eq_dec : EqDecision event.
Proof. solve_decision. Defined.

(** What holds of the gate however it is scheduled: whoever is on the
    waitlist is waiting or has returned; whoever is waiting is on the
    waitlist, and the state is then [loading]; and while the state is
    [loading] some call is at its load. *)
Definition consistent (g : gate) : Prop :=
  (∀ c, c ∈ waitlist g →
     calls g !! c = Some AwaitWaitlist ∨ calls g !! c = Some Returned) ∧
  (∀ c, calls g !! c = Some AwaitWaitlist → c ∈ waitlist g ∧ state g = loading) ∧
  (state g = loading → ∃ k, calls g !! k = Some AwaitLoad).

End FontGate.

(** * The component instance (instance script and template) *)
Module View.
Import Patch.

(** A JavaScript string as its UTF-16 code units, and the contents of
    a [Uint8Array]. *)
Abbreviation code_units := (list Z).
Abbreviation bytes := (list Z).

(** The calls the component makes on its engine instance. *)
Inductive engine_call :=
| Call_attachCustomKeyEventHandler
| Call_loadAddon
| Call_open
| Call_resize (cols rows : Z)
| Call_onTitleChange
| Call_write (data : string)
| Call_onData
| Call_onBinary
| Call_dispose.

#[export] Instance engine_call_eq_dec : EqDecision engine_call.
Proof. solve_decision. Defined.

(** An engine instance: the internal objects the patch reaches
    through, and the calls received so far, oldest first. *)
Record Terminal := {
  internal : TermObj;
  received : list engine_call;
}.

Definition send (c : engine_call) (t : Terminal) : Terminal :=
  {| internal := internal t; received := received t ++ [c] |}.

(** The events of [createEventDispatcher]. *)
Inductive outbound :=
| Data (b : bytes)
| Move (x y : Z)
| Moving (x y : Z)
| Close
| Focus.

#[export] Instance outbound_eq_dec : EqDecision outbound.
Proof. solve_decision. Defined.

Record MouseEvent := { pageX : Z; pageY : Z; button : Z }.

(** The variables of the instance script.  [mounted] holds from the
    moment the template is in the document and the second [onMount]
    callback has registered the window listeners until its cleanup
    function has run; [dispatched] lists the events passed to
    [dispatch], oldest first. *)
Record view := {
  rows : Z;
  cols : Z;
  term : option Terminal;
  loaded : bool;
  currentTitle : string;
  preloadBuffer : list string;
  dragging : bool;
  prevMouseX : Z;
  prevMouseY : Z;
  mounted : bool;
  dispatched : list outbound;
}.

Definition init (rows cols : Z) : view :=
  {| rows := rows; cols := cols; term := None; loaded := false;
     currentTitle := "Remote Terminal"; preloadBuffer := [];
     dragging := false; prevMouseX := 0; prevMouseY := 0;
     mounted := false; dispatched := [] |}.

Definition set_size (c r : Z) (v : view) : view :=
  {| rows := r; cols := c; term := term v; loaded := loaded v;
     currentTitle := currentTitle v; preloadBuffer := preloadBuffer v;
     dragging := dragging v; prevMouseX := prevMouseX v; prevMouseY := prevMouseY v;
     mounted := mounted v; dispatched := dispatched v |}.

Definition set_term (t : option Terminal) (v : view) : view :=
  {| rows := rows v; cols := cols v; term := t; loaded := loaded v;
     currentTitle := currentTitle v; preloadBuffer := preloadBuffer v;
     dragging := dragging v; prevMouseX := prevMouseX v; prevMouseY := prevMouseY v;
     mounted := mounted v; dispatched := dispatched v |}.

Definition set_loaded (b : bool) (v : view) : view :=
  {| rows := rows v; cols := cols v; term := term v; loaded := b;
     currentTitle := currentTitle v; preloadBuffer := preloadBuffer v;
     dragging := dragging v; prevMouseX := prevMouseX v; prevMouseY := prevMouseY v;
     mounted := mounted v; dispatched := dispatched v |}.

Definition set_currentTitle (title : string) (v : view) : view :=
  {| rows := rows v; cols := cols v; term := term v; loaded := loaded v;
     currentTitle := title; preloadBuffer := preloadBuffer v;
     dragging := dragging v; prevMouseX := prevMouseX v; prevMouseY := prevMouseY v;
     mounted := mounted v; dispatched := dispatched v |}.

Definition set_preloadBuffer (q : list string) (v : view) : view :=
  {| rows := rows v; cols := cols v; term := term v; loaded := loaded v;
     currentTitle := currentTitle v; preloadBuffer := q;
     dragging := dragging v; prevMouseX := prevMouseX v; prevMouseY := prevMouseY v;
     mounted := mounted v; dispatched := dispatched v |}.

Definition set_dragging (b : bool) (v : view) : view :=
  {| rows := rows v; cols := cols v; term := term v; loaded := loaded v;
     currentTitle := currentTitle v; preloadBuffer := preloadBuffer v;
     dragging := b; prevMouseX := prevMouseX v; prevMouseY := prevMouseY v;
     mounted := mounted v; dispatched := dispatched v |}.

Definition set_prevMouse (x y : Z) (v : view) : view :=
  {| rows := rows v; cols := cols v; term := term v; loaded := loaded v;
     currentTitle := currentTitle v; preloadBuffer := preloadBuffer v;
     dragging := dragging v; prevMouseX := x; prevMouseY := y;
     mounted := mounted v; dispatched := dispatched v |}.

Definition set_mounted (b : bool) (v : view) : view :=
  {| rows := rows v; cols := cols v; term := term v; loaded := loaded v;
     currentTitle := currentTitle v; preloadBuffer := preloadBuffer v;
     dragging := dragging v; prevMouseX := prevMouseX v; prevMouseY := prevMouseY v;
     mounted := b; dispatched := dispatched v |}.

Definition dispatch (e : outbound) (v : view) : view :=
  {| rows := rows v; cols := cols v; term := term v; loaded := loaded v;
     currentTitle := currentTitle v; preloadBuffer := preloadBuffer v;
     dragging := dragging v; prevMouseX := prevMouseX v; prevMouseY := prevMouseY v;
     mounted := mounted v; dispatched := dispatched v ++ [e] |}.

(** ** The bound [write] prop *)
Definition write (data : string) (v : view) : view :=
  match term v with
  | None => set_preloadBuffer (preloadBuffer v ++ [data]) v
  | Some t => set_term (Some (send (Call_write data) t)) v
  end.

(** ** [$: term?.resize(cols, rows)] *)
Definition reactive_resize (v : view) : view :=
  match term v with
  | None => v
  | Some t => set_term (Some (send (Call_resize (cols v) (rows v)) t)) v
  end.

(** ** The first [onMount] callback, from [await waitForFonts()] on

    Nothing is awaited after that point, so the rest of the callback
    runs in one turn of the event loop.  [xterm] is what
    [new Terminal({...})] builds; [w] is the module-level state that
    [patchXTerm] reads and writes.  When [patchXTerm] throws, the
    callback ends there. *)
Definition flush (q : list string) (t : Terminal) : Terminal :=
  foldl (λ t data, send (Call_write data) t) t q.

Definition onMount (xterm : TermObj) (w : World) (v : view)
  : World * view * completion unit :=
  let t := {| internal := xterm; received := [] |} in
  let v := set_term (Some t) v in
  match patchXTerm xterm w with
  | (w, Throw e) => (w, v, Throw e)
  | (w, Normal _) =>
      let t := send Call_attachCustomKeyEventHandler t in
      let t := send Call_loadAddon t in
      let t := send Call_open t in
      let t := send (Call_resize (cols v) (rows v)) t in
      let t := send Call_onTitleChange t in
      let v := set_loaded true v in
      let t := flush (preloadBuffer v) t in
      let t := send Call_onData t in
      let t := send Call_onBinary t in
      (w, set_term (Some t) v, Normal tt)
  end.

(** ** [onDestroy(() => term?.dispose())] *)
Definition onDestroy (v : view) : view :=
  match term v with
  | None => v
  | Some t => set_term (Some (send Call_dispose t)) v
  end.

(** ** Mouse handler logic *)
Definition handleDrag (event : MouseEvent) (start : bool) (v : view) : view :=
  if start then
    set_prevMouse (pageX event) (pageY event) (set_dragging true v)
  else if dragging v then
    dispatch (Moving (pageX event - prevMouseX v) (pageY event - prevMouseY v)) v
  else v.

Definition handleDragEnd (event : MouseEvent) (v : view) : view :=
  if negb (dragging v) then v
  else
    set_dragging false
      (dispatch (Move (pageX event - prevMouseX v) (pageY event - prevMouseY v)) v).

(** The second [onMount] callback and the cleanup function it returns. *)
Definition onMount_listeners (v : view) : view := set_mounted true v.
Definition cleanup_listeners (v : view) : view := set_mounted false v.

(** ** The template: elements with a [mousedown] or [click] listener

    [TermContainer] is the outer [div]; [HeaderBar] the flex row that
    starts a drag; the three buttons sit in the header; [TitleText]
    stands for the parts of the header that carry no listener of their
    own; [TermEl] is the element the engine is opened in. *)
Inductive element :=
| TermContainer
| HeaderBar
| CloseButton
| MinimizeButton
| MaximizeButton
| TitleText
| TermEl.

Definition parent (el : element) : option element :=
  match el with
  | TermContainer => None
  | HeaderBar | TermEl => Some TermContainer
  | CloseButton | MinimizeButton | MaximizeButton | TitleText => Some HeaderBar
  end.

(** [on:mousedown|stopPropagation] *)
Definition stopPropagation (el : element) : bool :=
  match el with
  | CloseButton | MinimizeButton | MaximizeButton => true
  | _ => false
  end.

(** The [on:mousedown] listener of each element. *)
Definition on_mousedown (el : element) (event : MouseEvent) (v : view) : view :=
  match el with
  | TermContainer => dispatch Focus v
  | HeaderBar => handleDrag event true v
  | _ => v
  end.

(** The [on:click] listener of each element. *)
Definition on_click (el : element) (v : view) : view :=
  match el with
  | CloseButton => dispatch Close v
  | _ => v
  end.

(** Bubbling: the listener of the target runs, then those of its
    ancestors, until one stops the propagation.  The template is three
    levels deep, which bounds [depth]. *)
Fixpoint bubble (depth : nat) (listener : element → view → view)
    (stops : element → bool) (el : element) (v : view) : view :=
  let v := listener el v in
  if stops el then v
  else
    match depth, parent el with
    | S depth, Some up => bubble depth listener stops up v
    | _, _ => v
    end.

Definition mousedown (target : element) (event : MouseEvent) (v : view) : view :=
  bubble 2 (λ el, on_mousedown el event) stopPropagation target v.

Definition click (target : element) (v : view) : view :=
  bubble 2 on_click (λ _, false) target v.

(** ** Outbound translation *)

(** [Buffer.from(data, "binary")] of the buffer package: one byte per
    code unit, its low eight bits. *)
Definition Buffer_from_binary (data : code_units) : bytes :=
  map (λ c, Z.land c 255) data.

Definition is_lead (c : Z) : bool := (55296 <=? c)%Z && (c <=? 56319)%Z.
Definition is_trail (c : Z) : bool := (56320 <=? c)%Z && (c <=? 57343)%Z.

(** The scalar values of a string; a surrogate without its partner
    reads as U+FFFD. *)
Fixpoint code_points (s : code_units) : list Z :=
  match s with
  | [] => []
  | c :: rest =>
      if is_lead c then
        match rest with
        | d :: rest' =>
            if is_trail d
            then (65536 + (c - 55296) * 1024 + (d - 56320))%Z :: code_points rest'
            else 65533%Z :: code_points rest
        | [] => [65533%Z]
        end
      else if is_trail c then 65533%Z :: code_points rest
      else c :: code_points rest
  end.

Definition utf8_of_code_point (c : Z) : bytes :=
  if (c <? 128)%Z then [c]
  else if (c <? 2048)%Z then
    [Z.lor 192 (Z.shiftr c 6); Z.lor 128 (Z.land c 63)]
  else if (c <? 65536)%Z then
    [Z.lor 224 (Z.shiftr c 12); Z.lor 128 (Z.land (Z.shiftr c 6) 63);
     Z.lor 128 (Z.land c 63)]
  else
    [Z.lor 240 (Z.shiftr c 18); Z.lor 128 (Z.land (Z.shiftr c 12) 63);
     Z.lor 128 (Z.land (Z.shiftr c 6) 63); Z.lor 128 (Z.land c 63)].

(** [new TextEncoder().encode(data)] *)
Definition utf8_encode (data : code_units) : bytes :=
  concat (map utf8_of_code_point (code_points data)).

(** The callbacks given to [term.onData], [term.onBinary] and
    [term.onTitleChange]. *)
Definition on_data (data : code_units) (v : view) : view :=
  dispatch (Data (utf8_encode data)) v.

Definition on_binary (data : code_units) (v : view) : view :=
  dispatch (Data (Buffer_from_binary data)) v.

Definition on_title (title : string) (v : view) : view :=
  set_currentTitle title v.

(** The engine calls a callback only once it has been subscribed. *)
Definition subscribed (c : engine_call) (v : view) : bool :=
  match term v with
  | Some t => bool_decide (c ∈ received t)
  | None => false
  end.

(** ** What can happen to an instance between its lifecycle callbacks *)
Inductive action :=
| Write (data : string)                          (* the parent calls [write] *)
| SetSize (cols rows : Z)                        (* the parent sets [cols], [rows] *)
| Update                                         (* Svelte re-runs the [$:] statement *)
| MouseDown (target : element) (event : MouseEvent)
| Click (target : element)
| MouseMove (event : MouseEvent)                 (* on [window] *)
| MouseUp (event : MouseEvent)                   (* on [window] *)
| MouseLeave (event : MouseEvent)                (* on [window] *)
| EngineData (data : code_units)
| EngineBinary (data : code_units)
| EngineTitle (title : string).

Definition perform (a : action) (v : view) : view :=
  match a with
  | Write data => write data v
  | SetSize c r =>
      (* both props are assigned; the [$:] statement is re-run only when
         one of them has changed *)
      if decide (c = cols v ∧ r = rows v) then set_size c r v
      else reactive_resize (set_size c r v)
  | Update => reactive_resize v
  | MouseDown target event => if mounted v then mousedown target event v else v
  | Click target => if mounted v then click target v else v
  | MouseMove event => if mounted v then handleDrag event false v else v
  | MouseUp event => if mounted v then handleDragEnd event v else v
  | MouseLeave event => if mounted v then handleDragEnd event v else v
  | EngineData data => if subscribed Call_onData v then on_data data v else v
  | EngineBinary data => if subscribed Call_onBinary v then on_binary data v else v
  | EngineTitle title => if subscribed Call_onTitleChange v then on_title title v else v
  end.

Definition exec (acts : list action) (v : view) : view :=
  foldl (λ v a, perform a v) v acts.

(** The life of an instance: it is mounted, which starts both
    [onMount] callbacks; things happen while the first one is still
    at its awaits; it runs its last turn; things happen afterwards. *)
Definition session (xterm : TermObj) (w : World) (rows cols : Z)
    (before after : list action) : World * view * completion unit :=
  let '(w, v, c) := onMount xterm w (exec before (onMount_listeners (init rows cols))) in
  (w, exec after v, c).

(** ** Reading the traces *)

(** The chunks the engine was given, in the order it got them. *)
Definition chunks (t : Terminal) : list string :=
  omap (λ c, match c with Call_write data => Some data | _ => None end) (received t).

(** The sizes the engine was given, in the order it got them. *)
Definition sizes (t : Terminal) : list (Z * Z) :=
  omap (λ c, match c with Call_resize c r => Some (c, r) | _ => None end) (received t).

(** The chunks a sequence of actions writes. *)
Definition written (acts : list action) : list string :=
  omap (λ a, match a with Write data => Some data | _ => None end) acts.

(** Two states with the same engine, queue and size. *)
Definition same_engine (v v' : view) : Prop :=
  term v' = term v ∧ preloadBuffer v' = preloadBuffer v ∧
  cols v' = cols v ∧ rows v' = rows v ∧ mounted v' = mounted v.

(** The event of a pointer at a page position, primary button. *)
Definition pointer (x y : Z) : MouseEvent := {| pageX := x; pageY := y; button := 0 |}.

(** The number of [focus] events in a list of dispatched events. *)
Definition focus_count (events : list outbound) : nat :=
  length (filter (λ e, e = Focus) events).

(** A view that has just been mounted, 80 columns by 24 rows, and the
    same view once its engine is up. *)
Definition fresh : view := onMount_listeners (init 24 80).
Definition ready : view := (session (mkTerm 0 1) stock 24 80 [] []).1.2.

(** ** Keyboard shortcuts for natural text editing *)

Record KeyboardEvent := {
  metaKey : bool;
  ctrlKey : bool;
  altKey : bool;
  key : string;
}.

(** [browser && navigator.platform.startsWith("Mac")] *)
Definition isMac (browser : bool) (platform : string) : bool :=
  browser && String.prefix "Mac" platform.

(** The function given to [term.attachCustomKeyEventHandler], with the
    value of [isMac] as [mac].  The boolean is what the function
    returns to the engine: [false] tells it to leave the key alone. *)
Definition customKeyEventHandler (mac : bool) (event : KeyboardEvent) (v : view)
  : view * bool :=
  if (mac && metaKey event && negb (ctrlKey event) && negb (altKey event))
     || (negb mac && negb (metaKey event) && ctrlKey event && negb (altKey event))
  then
    if decide (key event = "ArrowLeft") then (dispatch (Data [1%Z]) v, false)
    else if decide (key event = "ArrowRight") then (dispatch (Data [5%Z]) v, false)
    else if decide (key event = "Backspace") then (dispatch (Data [21%Z]) v, false)
    else (v, true)
  else (v, true).

(** The keys with a shortcut and the byte each one sends. *)
Definition shortcuts : list (string * Z) :=
  [("ArrowLeft", 1%Z); ("ArrowRight", 5%Z); ("Backspace", 21%Z)].

(** ** Counting in traces *)

Definition is_move (e : outbound) : bool :=
  match e with Move _ _ => true | _ => false end.

(** The number of [move] events in a list of dispatched events. *)
Definition move_count (events : list outbound) : nat :=
  length (List.filter is_move events).

(** The elements whose [mousedown] reaches the header's listener. *)
Definition starts_drag (target : element) : bool :=
  match target with
  | HeaderBar | TitleText => true
  | _ => false
  end.

Definition is_header_press (a : action) : bool :=
  match a with
  | MouseDown target _ => starts_drag target
  | _ => false
  end.

(** The number of presses on the header in a sequence of actions. *)
Definition header_presses (acts : list action) : nat :=
  length (List.filter is_header_press acts).

(** The calls made by [write] and by the reactive statement. *)
Definition is_write_or_resize (c : engine_call) : bool :=
  match c with
  | Call_write _ | Call_resize _ _ => true
  | _ => false
  end.

End View.

(** * Properties of the suppression patch *)
Section PatchProperties.
Import Patch.

Implicit Types (w : World) (p : IParams) (this : internals).

(** The method table [patchXTerm] leaves behind on an engine that has
    [_core] and [_inputHandler]. *)
Lemma patchXTerm_fresh T I w :
  patched w = false →
  patchXTerm (mkTerm T I) w =
    ({| patched := true;
        methods :=
          <[(I, "windowOptions") := windowOptions (methods w !! (I, "windowOptions"))]>
          (<[(I, "deviceStatusPrivate") := noop]>
          (<[(I, "deviceStatus") := noop]>
          (<[(I, "sendDeviceAttributesSecondary") := noop]>
          (<[(I, "sendDeviceAttributesPrimary") := noop]>
          (<[(I, "unhook") := unhook]>
          (<[(T, "_reportFocus") := noop]>
          (<[(T, "_handleColorEvent") := noop]> (methods w)))))))) |},
     Normal tt).
Proof.
  intros Hfresh.
  unfold patchXTerm, mbind, M_bind, read_patched. rewrite Hfresh. cbn.
  by simplify_map_eq.
Qed.

(** The guard: once [patched] is set, a call returns at once. *)
Lemma patchXTerm_guard term w :
  patched w = true → patchXTerm term w = (w, Normal tt).
Proof.
  intros Hdone. unfold patchXTerm, mbind, M_bind, read_patched.
  by rewrite Hdone.
Qed.

Lemma patchXTerm_sets_patched T I w :
  patched (patchXTerm (mkTerm T I) w).1 = true.
Proof.
  destruct (patched w) eqn:Hp.
  - by rewrite patchXTerm_guard.
  - by rewrite patchXTerm_fresh.
Qed.

(** The handlers replaced by [() => {}]. *)
Lemma terminal_handlers_silent T I w name p this :
  patched w = false → name ∈ terminal_handlers →
  invoke T name p this (patchXTerm (mkTerm T I) w).1 = Normal (this, undefined).
Proof.
  intros Hfresh Hin. rewrite (patchXTerm_fresh _ _ _ Hfresh).
  unfold invoke, terminal_handlers in *. cbn.
  repeat (apply elem_of_cons in Hin as [-> | Hin]); [| | by apply elem_of_nil in Hin];
    by simplify_map_eq.
Qed.

Lemma inputHandler_handlers_silent T I w name p this :
  patched w = false → name ∈ silenced_inputHandler_handlers →
  invoke I name p this (patchXTerm (mkTerm T I) w).1 = Normal (this, undefined).
Proof.
  intros Hfresh Hin. rewrite (patchXTerm_fresh _ _ _ Hfresh).
  unfold invoke, silenced_inputHandler_handlers in *. cbn.
  repeat (apply elem_of_cons in Hin as [-> | Hin]); [| | | | by apply elem_of_nil in Hin];
    by simplify_map_eq.
Qed.

(** C2. After the patch, on every instance state and for every
    argument: the color-event and focus-report handlers of the
    terminal class and the device-status and device-attribute handlers
    of the input handler class return [undefined] and leave the
    instance as it was, so nothing is sent back; [unhook] empties
    [_data], returns [true] and sends nothing back; [windowOptions]
    returns [true] without touching the instance when the first
    parameter is 18, and in every other case gives exactly what the
    engine's original [windowOptions] gives on the same instance and
    arguments. *)
Theorem patch_silences_queries T I w :
  patched w = false →
  let w' := (patchXTerm (mkTerm T I) w).1 in
  (∀ name p this, name ∈ terminal_handlers →
     invoke T name p this w' = Normal (this, undefined)) ∧
  (∀ name p this, name ∈ silenced_inputHandler_handlers →
     invoke I name p this w' = Normal (this, undefined)) ∧
  (∀ p this,
     invoke I "unhook" p this w' =
       Normal ({| _data := []; replies := replies this |}, jsbool true)) ∧
  (∀ p this, params p !! 0%nat = Some 18%Z →
     invoke I "windowOptions" p this w' = Normal (this, jsbool true)) ∧
  (∀ p this, params p !! 0%nat ≠ Some 18%Z →
     invoke I "windowOptions" p this w' = invoke I "windowOptions" p this w).
Proof.
  intros Hfresh w'. subst w'.
  split; [by intros; apply terminal_handlers_silent |].
  split; [by intros; apply inputHandler_handlers_silent |].
  rewrite (patchXTerm_fresh _ _ _ Hfresh). unfold invoke. cbn.
  repeat split.
  - intros p this. by simplify_map_eq.
  - intros p this H18. simplify_map_eq. unfold windowOptions.
    by rewrite decide_True.
  - intros p this H18. simplify_map_eq. unfold windowOptions.
    by rewrite decide_False.
Qed.

Lemma patch_silences_queries_witness :
  patched stock = false ∧
  invoke 1 "deviceStatus" {| params := [5%Z] |} {| _data := []; replies := [] |}
    (patchXTerm (mkTerm 0 1) stock).1
  = Normal ({| _data := []; replies := [] |}, undefined).
Proof.
  split; [reflexivity |].
  apply (patch_silences_queries 0 1 stock eq_refl).
  unfold silenced_inputHandler_handlers. set_solver.
Defined.

(** The unpatched stock engine does answer these queries. *)
Example stock_answers_deviceStatus :
  invoke 1 "deviceStatus" {| params := [5%Z] |} {| _data := []; replies := [] |} stock
  = Normal ({| _data := []; replies := ["[0n"] |}, jsbool true).
Proof. reflexivity. Qed.

(** An engine without [_core] makes the patch throw, after the guard
    has been set. *)
Lemma patchXTerm_no_core w :
  patched w = false →
  patchXTerm {| _core := None |} w =
    ({| patched := true; methods := methods w |}, Throw TypeError).
Proof.
  intros Hfresh. unfold patchXTerm, mbind, M_bind, read_patched.
  by rewrite Hfresh.
Qed.

(** C5, as the code has it.  On an engine that has [_core] and
    [_inputHandler], applying the patch completes without an error
    whichever handler names the two classes have: every replacement is
    installed by assignment, so all eight names are bound afterwards.
    When the engine had no [windowOptions], that only shows later, as
    a [TypeError] from the patched [windowOptions] called with a first
    parameter other than 18. *)
Theorem patch_ignores_missing_handlers T I w :
  patched w = false →
  ∃ w', patchXTerm (mkTerm T I) w = (w', Normal tt) ∧
    (∀ name, name ∈ terminal_handlers → is_Some (methods w' !! (T, name))) ∧
    (∀ name, name ∈ inputHandler_handlers → is_Some (methods w' !! (I, name))) ∧
    (methods w !! (I, "windowOptions") = None →
     ∀ p this, params p !! 0%nat ≠ Some 18%Z →
       invoke I "windowOptions" p this w' = Throw TypeError).
Proof.
  intros Hfresh. eexists. split; [by apply patchXTerm_fresh |].
  unfold invoke, terminal_handlers, inputHandler_handlers,
    silenced_inputHandler_handlers. cbn.
  repeat split.
  - intros name Hin.
    repeat (apply elem_of_cons in Hin as [-> | Hin]); [| | by apply elem_of_nil in Hin];
      by simplify_map_eq.
  - intros name Hin.
    repeat (apply elem_of_cons in Hin as [-> | Hin]);
      [| | | | | | by apply elem_of_nil in Hin];
      by simplify_map_eq.
  - intros Hnone p this H18. simplify_map_eq. unfold windowOptions.
    rewrite decide_False by done. by rewrite Hnone.
Qed.

Lemma patch_ignores_missing_handlers_witness :
  patched bare = false ∧
  methods bare !! (1, "windowOptions") = None ∧
  ∃ w', patchXTerm (mkTerm 0 1) bare = (w', Normal tt) ∧
    invoke 1 "windowOptions" {| params := [14%Z] |} {| _data := []; replies := [] |} w'
    = Throw TypeError.
Proof.
  split; [reflexivity |]. split; [reflexivity |].
  destruct (patch_ignores_missing_handlers 0 1 bare eq_refl) as (w' & Hrun & _ & _ & Hlate).
  exists w'. split; [exact Hrun |].
  apply Hlate; [reflexivity | discriminate].
Defined.

(** C5, as the claim has it, fails: the engine [bare] has none of the
    handlers, and applying the patch to it completes normally. *)
Lemma patch_missing_handlers_counterexample :
  (∀ C name, methods bare !! (C, name) = None) ∧
  (patchXTerm (mkTerm 0 1) bare).2 = Normal tt.
Proof.
  split.
  - intros C name. apply lookup_empty.
  - by rewrite patchXTerm_fresh.
Qed.

(** C8. After a first application, a second one, on the same instance
    or on any other, completes without an exception and returns the
    module state it was given: no prototype entry is assigned again.
    The replaced handlers sit on the classes, so they answer for every
    instance of these classes, whatever its state. *)
Theorem patch_twice_is_patch_once T I term' w :
  patched w = false →
  let once := patchXTerm (mkTerm T I) w in
  let twice := patchXTerm term' once.1 in
  once.2 = Normal tt ∧
  twice = (once.1, Normal tt) ∧
  (∀ T' name p this, name ∈ silenced_inputHandler_handlers →
     invoke_inputHandler (mkTerm T' I) name p this twice.1 = Normal (this, undefined)) ∧
  (∀ I' name p this, name ∈ terminal_handlers →
     invoke_core (mkTerm T I') name p this twice.1 = Normal (this, undefined)).
Proof.
  intros Hfresh once twice.
  assert (Htwice : twice = (once.1, Normal tt)).
  { subst twice once. apply patchXTerm_guard, patchXTerm_sets_patched. }
  rewrite Htwice. cbn [fst snd].
  split; [| split; [done | split]].
  - subst once. by rewrite patchXTerm_fresh.
  - intros T' name p this Hin. by apply inputHandler_handlers_silent.
  - intros I' name p this Hin. by apply terminal_handlers_silent.
Qed.

Lemma patch_twice_is_patch_once_witness :
  patched stock = false ∧
  patchXTerm (mkTerm 0 1) (patchXTerm (mkTerm 0 1) stock).1
  = ((patchXTerm (mkTerm 0 1) stock).1, Normal tt).
Proof.
  split; [reflexivity |].
  apply (patch_twice_is_patch_once 0 1 (mkTerm 0 1) stock eq_refl).
Defined.

End PatchProperties.

(** * Properties of the font gate *)
Section FontGateProperties.
Import FontGate.

(** A call that arrives while the state is [loading] registers on the
    waitlist and starts no load. *)
Lemma call_while_loading_waits c g :
  state g = loading → calls g !! c = None →
  ∃ g', step (Call c) g = Some g' ∧
    state g' = loading ∧ loads g' = loads g ∧
    waitlist g' = waitlist g ++ [c] ∧ calls g' !! c = Some AwaitWaitlist.
Proof.
  intros Hstate Hnew. eexists. split.
  - cbn. rewrite Hnew. unfold enter. rewrite Hstate. reflexivity.
  - cbn. by rewrite lookup_insert_eq.
Qed.

(** A call that arrives while the state is still [initial] goes to
    the import without changing the state, whether or not another call
    is already there. *)
Lemma call_while_initial_imports c g :
  state g = initial → calls g !! c = None →
  ∃ g', step (Call c) g = Some g' ∧
    state g' = initial ∧ loads g' = loads g ∧ waitlist g' = waitlist g ∧
    calls g' = <[c := AwaitImport]> (calls g).
Proof.
  intros Hstate Hnew. eexists. split.
  - cbn. rewrite Hnew. unfold enter. rewrite Hstate. reflexivity.
  - done.
Qed.

(** Every call whose import is fulfilled starts a load, whatever the
    state has become in the meantime. *)
Lemma import_starts_load c g :
  calls g !! c = Some AwaitImport →
  ∃ g', step (Imported c) g = Some g' ∧
    state g' = loading ∧ loads g' = loads g ++ [c] ∧
    calls g' = <[c := AwaitLoad]> (calls g).
Proof.
  intros Hat. eexists. split.
  - cbn. rewrite Hat. reflexivity.
  - done.
Qed.

Lemma resolve_all_fields (fns : list caller) g :
  let g' := foldl (λ g fn, resolve fn g) g fns in
  state g' = state g ∧ loads g' = loads g ∧
  ∀ c, calls g' !! c = Some AwaitImport → calls g !! c = Some AwaitImport.
Proof.
  revert g. induction fns as [| fn fns IH]; intros g; [done |].
  cbn. destruct (IH (resolve fn g)) as (-> & -> & Hcalls).
  repeat split. intros c Hc. apply Hcalls in Hc. cbn in Hc.
  destruct (decide (fn = c)) as [-> | Hne].
  - by rewrite lookup_insert_eq in Hc.
  - by rewrite lookup_insert_ne in Hc.
Qed.

(** Once the state has left [initial] and no call is waiting for its
    import, no schedule starts another load. *)
Lemma no_load_after_initial schedule g g' :
  state g ≠ initial →
  (∀ c, calls g !! c ≠ Some AwaitImport) →
  run schedule g = Some g' →
  loads g' = loads g.
Proof.
  revert g. induction schedule as [| e schedule IH]; intros g Hstate Hnone Hrun.
  - cbn in Hrun. by simplify_eq.
  - cbn [run] in Hrun. destruct (step e g) as [g1 |] eqn:Hstep; [| done].
    assert (state g1 ≠ initial ∧ (∀ c, calls g1 !! c ≠ Some AwaitImport)
            ∧ loads g1 = loads g) as (Hstate1 & Hnone1 & <-);
      [| by apply IH].
    destruct e as [c | c | c ok]; cbn in Hstep.
    + destruct (calls g !! c) eqn:Hc; [done |]. simplify_eq.
      unfold enter. destruct (state g) eqn:Hs; [done | |]; cbn; rewrite ?Hs;
        (repeat split; [done |]); intros c';
        (destruct (decide (c = c')) as [-> | Hne];
         [by rewrite lookup_insert_eq | by rewrite lookup_insert_ne]).
    + destruct (calls g !! c) as [[] |] eqn:Hc; try done. by apply Hnone in Hc.
    + destruct (calls g !! c) as [[] |] eqn:Hc; try done. simplify_eq.
      unfold after_load.
      remember (set_state loaded (if ok then g else warn g)) as g0 eqn:Hg0.
      destruct (resolve_all_fields (waitlist g0) g0) as (Hs & Hl & Hcalls).
      cbn in Hs, Hl, Hcalls. cbn. rewrite Hs, Hl. repeat split.
      * by rewrite Hg0.
      * intros c'. destruct (decide (c = c')) as [-> | Hne].
        -- by rewrite lookup_insert_eq.
        -- rewrite lookup_insert_ne by done. intros Hc'. apply Hcalls in Hc'.
           apply (Hnone c'). rewrite Hg0 in Hc'. by destruct ok.
      * rewrite Hg0. by destruct ok.
Qed.

(** X7. The gate does load once when the first call gets past its
    import before any other call is made: whatever is scheduled after
    that, the only load ever started is the one of the first call. *)
Lemma one_load_when_import_comes_first c schedule g :
  run (Call c :: Imported c :: schedule) init = Some g → loads g = [c].
Proof.
  intros Hrun. cbn in Hrun. rewrite lookup_empty in Hrun. cbn in Hrun.
  rewrite lookup_insert_eq in Hrun.
  apply no_load_after_initial in Hrun; [done | done |].
  intros c'. cbn. destruct (decide (c = c')) as [-> | Hne].
  - by rewrite lookup_insert_eq.
  - by rewrite !lookup_insert_ne, lookup_empty.
Qed.

(** C3 fails on the code.  Two views are mounted together: call 0
    finds the state [initial] and suspends at the import; call 1 then
    still finds [initial], because the state is only set to [loading]
    after the import; both imports are fulfilled, and each call starts
    a font load of its own. *)
Theorem waitForFonts_loads_twice :
  loads <$> run [Call 0; Call 1; Imported 0; Imported 1] init = Some [0; 1].
Proof. reflexivity. Qed.

End FontGateProperties.

(** * Properties of the component instance *)
Section ViewProperties.
Import Patch View.

Implicit Types (v : view) (t : Terminal) (a : action) (acts : list action).

(** ** What the mouse listeners leave alone *)

Lemma mousedown_same_engine target event v : same_engine v (mousedown target event v).
Proof. by destruct target. Qed.

Lemma click_same_engine target v : same_engine v (click target v).
Proof. by destruct target. Qed.

Lemma handleDrag_same_engine event start v : same_engine v (handleDrag event start v).
Proof. unfold handleDrag. by destruct start, (dragging v). Qed.

Lemma handleDragEnd_same_engine event v : same_engine v (handleDragEnd event v).
Proof. unfold handleDragEnd. by destruct (dragging v). Qed.

(** ** One action *)

(** While there is no engine, an action leaves it absent, and the queue
    grows by exactly the chunk the action writes, if any. *)
Lemma perform_without_engine a v :
  term v = None →
  term (perform a v) = None ∧
  preloadBuffer (perform a v) = preloadBuffer v ++ written [a].
Proof.
  intros Hnull.
  destruct a;
    cbn -[mousedown click handleDrag handleDragEnd write reactive_resize subscribed];
    rewrite ?app_nil_r.
  - unfold write. by rewrite Hnull.
  - unfold reactive_resize. case_decide; cbn; by rewrite Hnull.
  - unfold reactive_resize. by rewrite Hnull.
  - destruct (mounted v); [| done].
    destruct (mousedown_same_engine target event v) as (-> & -> & _). by rewrite Hnull.
  - destruct (mounted v); [| done].
    destruct (click_same_engine target v) as (-> & -> & _). by rewrite Hnull.
  - destruct (mounted v); [| done].
    destruct (handleDrag_same_engine event false v) as (-> & -> & _). by rewrite Hnull.
  - destruct (mounted v); [| done].
    destruct (handleDragEnd_same_engine event v) as (-> & -> & _). by rewrite Hnull.
  - destruct (mounted v); [| done].
    destruct (handleDragEnd_same_engine event v) as (-> & -> & _). by rewrite Hnull.
  - unfold subscribed. by rewrite Hnull.
  - unfold subscribed. by rewrite Hnull.
  - unfold subscribed. by rewrite Hnull.
Qed.

Lemma chunks_send c t :
  chunks (send c t) =
  chunks t ++ match c with Call_write data => [data] | _ => [] end.
Proof. unfold chunks. cbn. rewrite omap_app. by destruct c. Qed.

(** Once there is an engine, an action leaves the queue alone, and the
    engine receives exactly the chunk the action writes, if any, after
    those it already has. *)
Lemma perform_with_engine a v t :
  term v = Some t →
  ∃ t', term (perform a v) = Some t' ∧
    chunks t' = chunks t ++ written [a] ∧
    preloadBuffer (perform a v) = preloadBuffer v.
Proof.
  intros Hterm.
  destruct a;
    cbn -[mousedown click handleDrag handleDragEnd write reactive_resize subscribed chunks];
    rewrite ?app_nil_r.
  - unfold write. rewrite Hterm. eexists. split; [done |]. by rewrite chunks_send.
  - unfold reactive_resize. case_decide; cbn; rewrite Hterm.
    + by exists t.
    + eexists. split; [done |]. by rewrite chunks_send, app_nil_r.
  - unfold reactive_resize. rewrite Hterm. eexists. split; [done |].
    by rewrite chunks_send, app_nil_r.
  - exists t. destruct (mounted v); [| done].
    destruct (mousedown_same_engine target event v) as (-> & -> & _). by rewrite Hterm.
  - exists t. destruct (mounted v); [| done].
    destruct (click_same_engine target v) as (-> & -> & _). by rewrite Hterm.
  - exists t. destruct (mounted v); [| done].
    destruct (handleDrag_same_engine event false v) as (-> & -> & _). by rewrite Hterm.
  - exists t. destruct (mounted v); [| done].
    destruct (handleDragEnd_same_engine event v) as (-> & -> & _). by rewrite Hterm.
  - exists t. destruct (mounted v); [| done].
    destruct (handleDragEnd_same_engine event v) as (-> & -> & _). by rewrite Hterm.
  - exists t. by destruct (subscribed _ v).
  - exists t. by destruct (subscribed _ v).
  - exists t. by destruct (subscribed _ v).
Qed.

(** ** Sequences of actions *)

Lemma exec_cons a acts v : exec (a :: acts) v = exec acts (perform a v).
Proof. reflexivity. Qed.

Lemma written_cons a acts : written (a :: acts) = written [a] ++ written acts.
Proof. unfold written. cbn. by destruct a. Qed.

Lemma exec_without_engine acts v :
  term v = None →
  term (exec acts v) = None ∧
  preloadBuffer (exec acts v) = preloadBuffer v ++ written acts.
Proof.
  revert v. induction acts as [| a acts IH]; intros v Hnull.
  - cbn. by rewrite app_nil_r.
  - rewrite exec_cons, written_cons.
    destruct (perform_without_engine a v Hnull) as [Hnull' Hq].
    destruct (IH _ Hnull') as [-> ->]. by rewrite Hq, <- app_assoc.
Qed.

Lemma exec_with_engine acts v t :
  term v = Some t →
  ∃ t', term (exec acts v) = Some t' ∧
    chunks t' = chunks t ++ written acts ∧
    preloadBuffer (exec acts v) = preloadBuffer v.
Proof.
  revert v t. induction acts as [| a acts IH]; intros v t Hterm.
  - exists t. cbn. by rewrite app_nil_r.
  - rewrite exec_cons, written_cons.
    destruct (perform_with_engine a v t Hterm) as (t1 & Hterm1 & Hchunks1 & Hq1).
    destruct (IH _ _ Hterm1) as (t2 & Hterm2 & Hchunks2 & Hq2).
    exists t2. by rewrite Hterm2, Hchunks2, Hchunks1, Hq2, Hq1, <- app_assoc.
Qed.

(** ** The last turn of [onMount] *)

Lemma patchXTerm_completes T I w : ∃ w', patchXTerm (mkTerm T I) w = (w', Normal tt).
Proof.
  destruct (patched w) eqn:Hp; eexists.
  - by apply patchXTerm_guard.
  - by apply patchXTerm_fresh.
Qed.

Lemma flush_received q t : received (flush q t) = received t ++ (Call_write <$> q).
Proof.
  revert t. induction q as [| data q IH]; intros t.
  - cbn. by rewrite app_nil_r.
  - change (flush (data :: q) t) with (flush q (send (Call_write data) t)).
    rewrite IH. cbn. by rewrite <- app_assoc.
Qed.

Lemma chunks_writes (q : list string) :
  omap (λ c, match c with Call_write data => Some data | _ => None end) (Call_write <$> q) = q.
Proof. induction q as [| data q IH]; cbn; [done | by rewrite IH]. Qed.

(** On an engine instance that has its internal objects, the callback
    runs to its end: the engine has been configured, opened, sized,
    given the queue in order and subscribed to. *)
Lemma onMount_completes T I w v :
  ∃ w' t,
    onMount (mkTerm T I) w v = (w', set_term (Some t) (set_loaded true v), Normal tt) ∧
    received t =
      [Call_attachCustomKeyEventHandler; Call_loadAddon; Call_open;
       Call_resize (cols v) (rows v); Call_onTitleChange]
      ++ (Call_write <$> preloadBuffer v) ++ [Call_onData; Call_onBinary].
Proof.
  destruct (patchXTerm_completes T I w) as [w' Hpatch].
  unfold onMount. rewrite Hpatch. eexists _, _. split; [reflexivity |].
  cbn -[flush]. rewrite flush_received. cbn. by rewrite <- !app_assoc.
Qed.

Lemma sizes_writes (q : list string) :
  omap (λ c, match c with Call_resize c r => Some (c, r) | _ => None end) (Call_write <$> q)
  = [].
Proof. induction q as [| data q IH]; cbn; [done | by rewrite IH]. Qed.

(** What the engine has been given when the callback ends: the queue,
    in order, and one size, the current one.  The queue and the size of
    the view are as before. *)
Lemma onMount_engine T I w v :
  ∃ w1 v1 t1,
    onMount (mkTerm T I) w v = (w1, v1, Normal tt) ∧
    term v1 = Some t1 ∧
    chunks t1 = preloadBuffer v ∧
    sizes t1 = [(cols v, rows v)] ∧
    preloadBuffer v1 = preloadBuffer v.
Proof.
  destruct (onMount_completes T I w v) as (w1 & t1 & Hrun & Hrecv).
  exists w1, (set_term (Some t1) (set_loaded true v)), t1.
  split; [exact Hrun |]. split; [done |].
  unfold chunks, sizes. rewrite Hrecv, !omap_app, chunks_writes, sizes_writes. cbn.
  by rewrite app_nil_r.
Qed.

(** C1. The chunks written before the engine exists are all in the
    queue, in call order, and none has reached an engine; the last turn
    of [onMount] then gives the engine exactly these chunks in that
    order; and after any further actions the engine has been given the
    chunks written before it existed followed by the chunks written
    since, each once, in call order. *)
Theorem write_delivers_once_in_order T I w rows cols before after :
  let v0 := exec before (onMount_listeners (init rows cols)) in
  (term v0 = None ∧ preloadBuffer v0 = written before) ∧
  ∃ w1 v1 t1,
    onMount (mkTerm T I) w v0 = (w1, v1, Normal tt) ∧
    term v1 = Some t1 ∧ chunks t1 = written before ∧
    ∃ t2,
      term (exec after v1) = Some t2 ∧
      chunks t2 = written before ++ written after.
Proof.
  intros v0.
  destruct (exec_without_engine before (onMount_listeners (init rows cols)) eq_refl)
    as [Hnull Hq].
  fold v0 in Hnull, Hq. cbn in Hq.
  split; [done |].
  destruct (onMount_engine T I w v0) as (w1 & v1 & t1 & Hrun & Hterm & Hchunks & _ & _).
  exists w1, v1, t1. rewrite Hchunks, Hq.
  split; [done |]. split; [done |]. split; [done |].
  destruct (exec_with_engine after v1 t1 Hterm) as (t2 & Hterm2 & Hchunks2 & _).
  exists t2. by rewrite Hchunks2, Hchunks, Hq.
Qed.

(** C4, as the code has it.  The last turn of [onMount] gives the
    engine every queued chunk in enqueue order and leaves the queue as it
    was, still holding these chunks; every later write goes to the
    engine and not to the queue, which is never read again, so the
    engine has been given each chunk once. *)
Theorem flush_delivers_queue_and_keeps_it T I w v after :
  ∃ w1 v1 t1,
    onMount (mkTerm T I) w v = (w1, v1, Normal tt) ∧
    term v1 = Some t1 ∧
    chunks t1 = preloadBuffer v ∧
    preloadBuffer v1 = preloadBuffer v ∧
    ∃ t2,
      term (exec after v1) = Some t2 ∧
      chunks t2 = preloadBuffer v ++ written after ∧
      preloadBuffer (exec after v1) = preloadBuffer v.
Proof.
  destruct (onMount_engine T I w v) as (w1 & v1 & t1 & Hrun & Hterm & Hchunks & _ & Hq).
  exists w1, v1, t1. do 4 (split; [done |]).
  destruct (exec_with_engine after v1 t1 Hterm) as (t2 & Hterm2 & Hchunks2 & Hq2).
  exists t2. by rewrite Hchunks2, Hchunks, Hq2, Hq.
Qed.

(** C4, as the claim has it, fails: one chunk is written before the
    engine exists; after the flush the engine has it, and the queue
    still holds it. *)
Lemma flush_clears_queue_counterexample :
  let v := (session (mkTerm 0 1) stock 24 80 [Write "ls"] []).1.2 in
  chunks <$> term v = Some ["ls"] ∧ preloadBuffer v = ["ls"] ∧ preloadBuffer v ≠ [].
Proof. vm_compute. by repeat split. Qed.

(** C10. While there is no engine, setting [cols] and [rows] changes
    these two variables and nothing else: the reactive statement does
    nothing.  The last turn of [onMount] gives the new engine one size,
    the current [cols] and [rows].  From then on, every change of
    [cols] or [rows] is sent to the engine as a [resize] with the new
    values; setting them to the values they have sends nothing. *)
Theorem resize_before_engine_is_safe T I w v c r after c' r' :
  term v = None →
  perform (SetSize c r) v = set_size c r v ∧
  ∃ w1 v1 t1,
    onMount (mkTerm T I) w v = (w1, v1, Normal tt) ∧
    term v1 = Some t1 ∧ sizes t1 = [(cols v, rows v)] ∧
    ∃ t2,
      term (exec after v1) = Some t2 ∧
      ((c', r') ≠ (cols (exec after v1), rows (exec after v1)) →
       term (perform (SetSize c' r') (exec after v1))
       = Some (send (Call_resize c' r') t2)) ∧
      term (perform (SetSize (cols (exec after v1)) (rows (exec after v1))) (exec after v1))
      = Some t2.
Proof.
  intros Hnull. split.
  { cbn. unfold reactive_resize. case_decide; cbn; by rewrite ?Hnull. }
  destruct (onMount_engine T I w v) as (w1 & v1 & t1 & Hrun & Hterm & _ & Hsizes & _).
  exists w1, v1, t1. do 3 (split; [done |]).
  destruct (exec_with_engine after v1 t1 Hterm) as (t2 & Hterm2 & _).
  exists t2. split; [done |]. split.
  - intros Hchange. cbn [perform]. rewrite decide_False.
    + unfold reactive_resize. cbn. by rewrite Hterm2.
    + intros [-> ->]. by apply Hchange.
  - cbn [perform]. by rewrite decide_True.
Qed.

Lemma resize_before_engine_is_safe_witness :
  term (init 24 80) = None ∧
  perform (SetSize 100 30) (init 24 80) = set_size 100 30 (init 24 80) ∧
  (120, 40)%Z ≠ (100, 30)%Z ∧
  ∃ w1 v1 t2,
    onMount (mkTerm 0 1) stock (set_size 100 30 (init 24 80)) = (w1, v1, Normal tt) ∧
    term v1 = Some t2 ∧
    term (perform (SetSize 120 40) v1) = Some (send (Call_resize 120 40) t2).
Proof.
  split; [reflexivity |].
  split; [apply (resize_before_engine_is_safe 0 1 stock (init 24 80) 100 30 [] 120 40 eq_refl) |].
  split; [discriminate |].
  destruct (resize_before_engine_is_safe 0 1 stock (set_size 100 30 (init 24 80))
              100 30 [] 120 40 eq_refl)
    as (_ & w1 & v1 & t1 & Hrun & Hterm & _ & t2 & Hterm2 & Hchange & _).
  exists w1, v1, t2. split; [exact Hrun |]. split; [exact Hterm2 |].
  apply Hchange.
  assert (Hv1 : (cols v1, rows v1) = (100, 30)%Z).
  { vm_compute in Hrun. injection Hrun as _ <-. reflexivity. }
  cbn [exec foldl]. rewrite Hv1. discriminate.
Defined.

(** ** Dragging *)

(** While a drag is on, every pointer move dispatches one [moving]
    event, whose delta is taken from the position of the press, and the
    drag state stays as it is. *)
Lemma moves_while_dragging (moves : list MouseEvent) v :
  mounted v = true → dragging v = true →
  let v' := exec (MouseMove <$> moves) v in
  dispatched v' =
    dispatched v ++
    ((λ m, Moving (pageX m - prevMouseX v) (pageY m - prevMouseY v)) <$> moves) ∧
  mounted v' = true ∧ dragging v' = true ∧
  prevMouseX v' = prevMouseX v ∧ prevMouseY v' = prevMouseY v.
Proof.
  revert v. induction moves as [| m moves IH]; intros v Hm Hd.
  - cbn. by rewrite app_nil_r.
  - cbn [fmap list_fmap]. rewrite exec_cons.
    set (v1 := perform (MouseMove m) v).
    assert (Hv1 : v1 = dispatch (Moving (pageX m - prevMouseX v) (pageY m - prevMouseY v)) v).
    { subst v1. cbn. rewrite Hm. unfold handleDrag. by rewrite Hd. }
    destruct (IH v1) as (Hdisp & Hm' & Hd' & Hx & Hy); [by rewrite Hv1 .. |].
    cbn zeta. rewrite Hdisp, Hm', Hd', Hx, Hy, Hv1. cbn.
    by rewrite <- app_assoc.
Qed.

(** C6. On a mounted view, whatever else its state: after the press on
    the header at (100,100) and the moves to (130,115) and (150,140),
    the events dispatched are one [focus] (for the press) and the two
    [moving] events (30,15) and (50,40), and no [move]; the release at
    (150,140) adds the one [move] event (50,40) and ends the drag.  For
    any press and any moves, each [moving] event carries the difference
    between the position of its move and that of the press.  A release
    while no drag is on changes nothing and dispatches nothing. *)
Theorem drag_scenario v :
  mounted v = true →
  let gesture :=
    [MouseDown HeaderBar (pointer 100 100);
     MouseMove (pointer 130 115); MouseMove (pointer 150 140)] in
  dispatched (exec gesture v) = dispatched v ++ [Focus; Moving 30 15; Moving 50 40] ∧
  dispatched (exec (gesture ++ [MouseUp (pointer 150 140)]) v)
    = dispatched v ++ [Focus; Moving 30 15; Moving 50 40; Move 50 40] ∧
  dragging (exec (gesture ++ [MouseUp (pointer 150 140)]) v) = false ∧
  (∀ press moves,
     dispatched (exec (MouseDown HeaderBar press :: (MouseMove <$> moves)) v)
     = dispatched v ++
       Focus :: ((λ m, Moving (pageX m - pageX press) (pageY m - pageY press)) <$> moves)) ∧
  (∀ u release, dragging u = false →
     perform (MouseUp release) u = u ∧ perform (MouseLeave release) u = u).
Proof.
  intros Hm gesture. subst gesture.
  split; [| split; [| split; [| split]]].
  - destruct v. cbn in Hm. subst. cbn. by rewrite <- !app_assoc.
  - destruct v. cbn in Hm. subst. cbn. by rewrite <- !app_assoc.
  - destruct v. cbn in Hm. by subst.
  - intros press moves. rewrite exec_cons.
    set (v1 := perform (MouseDown HeaderBar press) v).
    assert (Hv1 : v1 = dispatch Focus (handleDrag press true v)).
    { subst v1. cbn. by rewrite Hm. }
    destruct (moves_while_dragging moves v1) as (-> & _); [by rewrite Hv1 .. |].
    rewrite Hv1. cbn. by rewrite <- app_assoc.
  - intros u release Hidle. cbn. unfold handleDragEnd. rewrite Hidle. cbn.
    by destruct (mounted u).
Qed.

Lemma drag_scenario_witness :
  mounted fresh = true ∧
  dispatched
    (exec [MouseDown HeaderBar (pointer 100 100); MouseMove (pointer 130 115);
           MouseMove (pointer 150 140); MouseUp (pointer 150 140)] fresh)
  = [Focus; Moving 30 15; Moving 50 40; Move 50 40] ∧
  perform (MouseUp (pointer 150 140)) fresh = fresh.
Proof.
  split; [reflexivity |].
  destruct (drag_scenario fresh eq_refl) as (_ & Hrelease & _ & _ & Hidle).
  split; [exact Hrelease |].
  apply (Hidle fresh (pointer 150 140) eq_refl).
Defined.

(** ** Focus *)

Lemma focus_count_app (l k : list outbound) :
  focus_count (l ++ k) = focus_count l + focus_count k.
Proof. unfold focus_count. by rewrite filter_app, length_app. Qed.

(** C7, as the code has it.  On a mounted view, a press of any mouse
    button on the container, the header, the title or the terminal
    element dispatches exactly one event, a [focus], whether or not a
    drag is on and whether or not the press starts one.  A press on one
    of the three header buttons stops there: it dispatches nothing and
    leaves the view as it was. *)
Theorem press_focuses_outside_buttons v target event :
  mounted v = true →
  (stopPropagation target = false →
     dispatched (perform (MouseDown target event) v) = dispatched v ++ [Focus] ∧
     focus_count (dispatched (perform (MouseDown target event) v))
       = S (focus_count (dispatched v))) ∧
  (stopPropagation target = true →
     perform (MouseDown target event) v = v).
Proof.
  intros Hm. cbn [perform]. rewrite Hm. split.
  - intros Hbubbles.
    assert (Hd : dispatched (mousedown target event v) = dispatched v ++ [Focus])
      by (by destruct target).
    split; [done |]. rewrite Hd, focus_count_app.
    change (focus_count [Focus]) with 1. lia.
  - intros Hstops. by destruct target.
Qed.

Lemma press_focuses_outside_buttons_witness :
  mounted fresh = true ∧
  stopPropagation HeaderBar = false ∧
  dispatched (perform (MouseDown HeaderBar {| pageX := 5; pageY := 5; button := 2 |}) fresh)
  = dispatched fresh ++ [Focus] ∧
  stopPropagation MinimizeButton = true ∧
  perform (MouseDown MinimizeButton (pointer 5 5)) fresh = fresh.
Proof.
  split; [reflexivity |]. split; [reflexivity |].
  split; [| split; [reflexivity |]].
  - apply (press_focuses_outside_buttons fresh HeaderBar
             {| pageX := 5; pageY := 5; button := 2 |} eq_refl). reflexivity.
  - apply (press_focuses_outside_buttons fresh MinimizeButton (pointer 5 5) eq_refl).
    reflexivity.
Defined.

(** C7, as the claim has it, fails: a press with the primary button on
    the close button, which is one of the header's controls, dispatches
    no [focus] event; and a press with the secondary button on the
    header dispatches one all the same. *)
Lemma press_focuses_counterexample :
  mounted fresh = true ∧
  button (pointer 100 100) = 0%Z ∧
  focus_count (dispatched (perform (MouseDown CloseButton (pointer 100 100)) fresh)) = 0 ∧
  focus_count
    (dispatched
       (perform (MouseDown HeaderBar {| pageX := 100; pageY := 100; button := 2 |}) fresh))
  = 1.
Proof. by repeat split. Qed.

(** ** Binary data *)

Lemma Buffer_from_binary_bytes (data : code_units) :
  Forall (λ c, 0 ≤ c < 256)%Z data → Buffer_from_binary data = data.
Proof.
  unfold Buffer_from_binary. induction 1 as [| c data Hc _ IH]; cbn; [done |].
  rewrite IH. f_equal.
  change 255%Z with (Z.ones 8). rewrite Z.land_ones by lia.
  apply Z.mod_small. lia.
Qed.

(** C9. Once the engine has been subscribed to with [onBinary], a
    binary string it reports (every code unit below 256) is dispatched
    as one [data] event whose bytes are the code units of the string,
    one byte each, in order.  For the string with the code units FF, 00,
    41 the bytes are FF, 00, 41, where the encoder used for [onData]
    would give C3, BF, 00, 41. *)
Theorem binary_paste_is_byte_for_byte v (data : code_units) :
  subscribed Call_onBinary v = true →
  Forall (λ c, 0 ≤ c < 256)%Z data →
  dispatched (perform (EngineBinary data) v) = dispatched v ++ [Data data] ∧
  dispatched (perform (EngineBinary [255; 0; 65]%Z) v)
    = dispatched v ++ [Data [255; 0; 65]%Z] ∧
  utf8_encode [255; 0; 65]%Z = [195; 191; 0; 65]%Z.
Proof.
  intros Hsub Hbin. cbn [perform]. rewrite Hsub. unfold on_binary. cbn [dispatched dispatch].
  rewrite (Buffer_from_binary_bytes data Hbin). by repeat split.
Qed.

Lemma binary_paste_is_byte_for_byte_witness :
  subscribed Call_onBinary ready = true ∧
  Forall (λ c, 0 ≤ c < 256)%Z [255; 0; 65]%Z ∧
  dispatched (perform (EngineBinary [255; 0; 65]%Z) ready)
  = dispatched ready ++ [Data [255; 0; 65]%Z].
Proof.
  assert (Hsub : subscribed Call_onBinary ready = true) by reflexivity.
  assert (Hbin : Forall (λ c, 0 ≤ c < 256)%Z [255; 0; 65]%Z)
    by (repeat constructor; lia).
  split; [exact Hsub |]. split; [exact Hbin |].
  apply (binary_paste_is_byte_for_byte ready [255; 0; 65]%Z Hsub Hbin).
Defined.

End ViewProperties.


(** * Further properties of the suppression patch *)
Section PatchCoverage.
Import Patch.

Implicit Types (w : World) (p : IParams) (this : internals) (term : TermObj).

(** An engine without its internal objects makes the patch throw,
    after the guard has been set and before anything is assigned. *)
Lemma patchXTerm_no_internals term w :
  patched w = false → has_internals term = false →
  patchXTerm term w = ({| patched := true; methods := methods w |}, Throw TypeError).
Proof.
  intros Hfresh Hnone. unfold patchXTerm, mbind, M_bind, read_patched.
  rewrite Hfresh. cbn. unfold has_internals in Hnone.
  destruct (_core term) as [core |]; [| done]. cbn.
  by destruct (_inputHandler core).
Qed.

Lemma has_internals_mkTerm term :
  has_internals term = true →
  ∃ T I, term = mkTerm T I.
Proof.
  unfold has_internals. destruct term as [[[T [[I] |]] |]]; try done.
  intros _. by exists T, I.
Qed.

(** X1. Applying the patch changes the eight prototype entries it
    names and no other: every other method of the two classes, and
    every method of every other class, is the one the engine had. *)
Theorem patch_touches_only_its_handlers T I w (k : classid * string) :
  patched w = false →
  k ∉ replaced_keys T I →
  methods (patchXTerm (mkTerm T I) w).1 !! k = methods w !! k.
Proof.
  intros Hfresh Hk. rewrite (patchXTerm_fresh _ _ _ Hfresh). cbn.
  unfold replaced_keys, terminal_handlers, inputHandler_handlers,
    silenced_inputHandler_handlers in Hk. cbn in Hk.
  rewrite !not_elem_of_cons in Hk. destruct_and!.
  by rewrite !lookup_insert_ne.
Qed.

Lemma patch_touches_only_its_handlers_witness :
  patched stock = false ∧
  ((0, "deviceStatus") ∉ replaced_keys 0 1) ∧
  methods (patchXTerm (mkTerm 0 1) stock).1 !! (0, "deviceStatus")
  = methods stock !! (0, "deviceStatus").
Proof.
  assert (Hk : (0, "deviceStatus") ∉ replaced_keys 0 1).
  { unfold replaced_keys. cbn. rewrite !not_elem_of_cons.
    by repeat split; try apply not_elem_of_nil. }
  split; [reflexivity |]. split; [exact Hk |].
  apply (patch_touches_only_its_handlers 0 1 stock (0, "deviceStatus") eq_refl Hk).
Defined.

(** X2. Applying the patch throws exactly when the guard is not set
    and the instance lacks [_core] or [_core._inputHandler]; in every
    other case it completes normally.  Either way the guard is set
    afterwards. *)
Theorem patch_throws_only_without_internals term w :
  (patchXTerm term w).2
    = (if patched w || has_internals term then Normal tt else Throw TypeError) ∧
  patched (patchXTerm term w).1 = true.
Proof.
  destruct (patched w) eqn:Hp.
  - by rewrite patchXTerm_guard.
  - destruct (has_internals term) eqn:Hint.
    + destruct (has_internals_mkTerm term Hint) as (T & I & ->).
      by rewrite patchXTerm_fresh.
    + by rewrite patchXTerm_no_internals.
Qed.

(** X3. A first application that throws has installed nothing and
    has set the guard all the same, so every later application, also one
    on a complete engine, returns normally without installing anything:
    the handlers of every class stay the ones of the unpatched engine. *)
Theorem failed_patch_disables_patching term term' w C name p this :
  patched w = false → has_internals term = false →
  let w1 := (patchXTerm term w).1 in
  methods w1 = methods w ∧
  patchXTerm term' w1 = (w1, Normal tt) ∧
  invoke C name p this (patchXTerm term' w1).1 = invoke C name p this w.
Proof.
  intros Hfresh Hnone w1. subst w1.
  rewrite (patchXTerm_no_internals _ _ Hfresh Hnone). cbn [fst].
  split; [done |].
  assert (Hguard : ∀ w', patched w' = true → patchXTerm term' w' = (w', Normal tt))
    by (intros; by apply patchXTerm_guard).
  rewrite Hguard by done. by repeat split.
Qed.

Lemma failed_patch_disables_patching_witness :
  patched stock = false ∧ has_internals {| _core := None |} = false ∧
  invoke 1 "deviceStatus" {| params := [5%Z] |} {| _data := []; replies := [] |}
    (patchXTerm (mkTerm 0 1) (patchXTerm {| _core := None |} stock).1).1
  = Normal ({| _data := []; replies := ["[0n"] |}, jsbool true).
Proof.
  split; [reflexivity |]. split; [reflexivity |].
  destruct (failed_patch_disables_patching {| _core := None |} (mkTerm 0 1) stock
              1 "deviceStatus" {| params := [5%Z] |} {| _data := []; replies := [] |}
              eq_refl eq_refl) as (_ & _ & Hsame).
  rewrite Hsame. reflexivity.
Defined.

End PatchCoverage.


(** * Further properties of the font gate *)
Section FontGateCoverage.
Import FontGate.

Implicit Types (g : gate) (c k : caller) (schedule : list event).

Lemma resolve_all_spec (fns : list caller) g :
  let g' := foldl (λ g fn, resolve fn g) g fns in
  state g' = state g ∧ waitlist g' = waitlist g ∧
  loads g' = loads g ∧ warnings g' = warnings g ∧
  ∀ c, calls g' !! c = if decide (c ∈ fns) then Some Returned else calls g !! c.
Proof.
  revert g. induction fns as [| fn fns IH]; intros g.
  - cbn. do 4 (split; [done |]).
    intros c. rewrite decide_False; [done | apply not_elem_of_nil].
  - cbn. destruct (IH (resolve fn g)) as (-> & -> & -> & -> & Hcalls).
    do 4 (split; [done |]). intros c. rewrite Hcalls. cbn.
    destruct (decide (c ∈ fns)) as [Hin | Hout].
    + rewrite decide_True; [done | by right].
    + destruct (decide (c = fn)) as [-> | Hne].
      * rewrite decide_True by left. by rewrite lookup_insert_eq.
      * rewrite decide_False by (rewrite elem_of_cons; tauto).
        by rewrite lookup_insert_ne.
Qed.

(** The gate after a load has settled. *)
Lemma after_load_spec c ok g :
  let g' := after_load c ok g in
  state g' = loaded ∧ waitlist g' = waitlist g ∧ loads g' = loads g ∧
  warnings g' = (if ok then warnings g else S (warnings g)) ∧
  ∀ x, calls g' !! x =
       if decide (x = c) then Some Returned
       else if decide (x ∈ waitlist g) then Some Returned
       else calls g !! x.
Proof.
  unfold after_load.
  remember (set_state loaded (if ok then g else warn g)) as g0 eqn:Hg0.
  destruct (resolve_all_spec (waitlist g0) g0) as (Hs & Hw & Hl & Hn & Hcalls).
  cbn in Hs, Hw, Hl, Hn, Hcalls. cbn.
  assert (Hwl : waitlist g0 = waitlist g) by (rewrite Hg0; by destruct ok).
  rewrite Hs, Hw, Hl, Hn. split; [| split; [| split; [| split]]].
  - by rewrite Hg0.
  - done.
  - rewrite Hg0. by destruct ok.
  - rewrite Hg0. by destruct ok.
  - intros x. destruct (decide (x = c)) as [-> | Hne].
    + by rewrite lookup_insert_eq.
    + rewrite lookup_insert_ne by done. rewrite Hcalls, Hwl.
      destruct (decide (x ∈ waitlist g)); [done |]. rewrite Hg0. by destruct ok.
Qed.

Lemma step_consistent e g g' :
  consistent g → step e g = Some g' → consistent g'.
Proof.
  intros (Hlist & Hwait & Hload) Hstep.
  destruct e as [c | c | c ok]; cbn in Hstep.
  - destruct (calls g !! c) eqn:Hc; [done |]. simplify_eq.
    assert (Hout : c ∉ waitlist g).
    { intros Hin. destruct (Hlist c Hin) as [H | H]; by rewrite Hc in H. }
    unfold enter. destruct (state g) eqn:Hs; cbn; rewrite ?Hs.
    + (* initial *)
      split; [| split]; cbn.
      * intros x Hx. rewrite lookup_insert_ne by (by intros ->). by apply Hlist.
      * intros x Hx. destruct (decide (c = x)) as [-> | Hne].
        -- by rewrite lookup_insert_eq in Hx.
        -- rewrite lookup_insert_ne in Hx by done.
           destruct (Hwait x Hx) as [_ Hl]. congruence.
      * intros; congruence.
    + (* loading *)
      split; [| split]; cbn.
      * intros x Hx. apply elem_of_app in Hx as [Hx | Hx].
        -- rewrite lookup_insert_ne by (by intros ->). by apply Hlist.
        -- apply list_elem_of_singleton in Hx as ->. left. by rewrite lookup_insert_eq.
      * intros x Hx. split; [| done]. destruct (decide (c = x)) as [-> | Hne].
        -- apply elem_of_app. right. by apply list_elem_of_singleton.
        -- rewrite lookup_insert_ne in Hx by done.
           apply elem_of_app. left. by apply Hwait.
      * intros _. destruct Hload as [k Hk]; [congruence |]. exists k.
        rewrite lookup_insert_ne; [done |]. intros ->. by rewrite Hc in Hk.
    + (* loaded *)
      split; [| split]; cbn.
      * intros x Hx. rewrite lookup_insert_ne by (by intros ->). by apply Hlist.
      * intros x Hx. destruct (decide (c = x)) as [-> | Hne].
        -- by rewrite lookup_insert_eq in Hx.
        -- rewrite lookup_insert_ne in Hx by done.
           destruct (Hwait x Hx) as [_ Hl]. congruence.
      * intros; congruence.
  - destruct (calls g !! c) as [[] |] eqn:Hc; try done. simplify_eq.
    assert (Hout : c ∉ waitlist g).
    { intros Hin. destruct (Hlist c Hin) as [H | H]; by rewrite Hc in H. }
    unfold after_import. split; [| split]; cbn.
    + intros x Hx. rewrite lookup_insert_ne by (by intros ->). by apply Hlist.
    + intros x Hx. split; [| done]. destruct (decide (c = x)) as [-> | Hne].
      * by rewrite lookup_insert_eq in Hx.
      * rewrite lookup_insert_ne in Hx by done. by apply Hwait.
    + intros _. exists c. by rewrite lookup_insert_eq.
  - destruct (calls g !! c) as [[] |] eqn:Hc; try done. simplify_eq.
    destruct (after_load_spec c ok g) as (Hs & Hw & _ & _ & Hcalls).
    cbn zeta in Hs, Hw, Hcalls.
    split; [| split].
    + intros x Hx. rewrite Hw in Hx. right. rewrite Hcalls.
      destruct (decide (x = c)); [done |]. by rewrite decide_True.
    + intros x Hx. rewrite Hcalls in Hx.
      destruct (decide (x = c)); [done |].
      destruct (decide (x ∈ waitlist g)) as [| Hout]; [done |].
      by destruct (Hwait x Hx).
    + intros; congruence.
Qed.

Lemma run_cons e schedule g :
  run (e :: schedule) g = step e g ≫= run schedule.
Proof. cbn. by destruct (step e g). Qed.

Lemma run_consistent schedule g g' :
  consistent g → run schedule g = Some g' → consistent g'.
Proof.
  revert g. induction schedule as [| e schedule IH]; intros g Hg Hrun.
  - cbn in Hrun. by simplify_eq.
  - cbn [run] in Hrun. destruct (step e g) as [g1 |] eqn:Hstep; [| done].
    eapply IH; [| exact Hrun]. by eapply step_consistent.
Qed.

Lemma init_consistent : consistent init.
Proof.
  split; [| split].
  - intros c Hc. by apply elem_of_nil in Hc.
  - intros c Hc. cbn in Hc. by rewrite lookup_empty in Hc.
  - done.
Qed.

(** X4. However the calls have been scheduled, a call that is
    suspended on the waitlist is never left behind: some call is at its
    font load, and when that load settles, with success or with failure,
    the state becomes [loaded] and the waiting call returns. *)
Theorem waiting_call_is_woken schedule g c :
  run schedule init = Some g →
  calls g !! c = Some AwaitWaitlist →
  ∃ k, calls g !! k = Some AwaitLoad ∧
    ∀ ok, ∃ g',
      step (Settled k ok) g = Some g' ∧
      calls g' !! c = Some Returned ∧ state g' = loaded.
Proof.
  intros Hrun Hc.
  destruct (run_consistent _ _ _ init_consistent Hrun) as (_ & Hwait & Hload).
  destruct (Hwait c Hc) as [Hin Hstate].
  destruct (Hload Hstate) as [k Hk]. exists k. split; [done |].
  intros ok. exists (after_load k ok g). cbn [step]. rewrite Hk.
  destruct (after_load_spec k ok g) as (Hs & _ & _ & _ & Hcalls). cbn zeta in Hs, Hcalls.
  split; [done |]. split; [| done].
  rewrite Hcalls. destruct (decide (c = k)); [done |]. by rewrite decide_True.
Qed.

Lemma waiting_call_is_woken_witness :
  ∃ g, run [Call 0; Imported 0; Call 1] init = Some g ∧
    calls g !! 1 = Some AwaitWaitlist ∧
    ∃ k, calls g !! k = Some AwaitLoad.
Proof.
  eexists. split; [reflexivity |]. split; [reflexivity |].
  destruct (waiting_call_is_woken [Call 0; Imported 0; Call 1] _ 1 eq_refl eq_refl)
    as (k & Hk & _).
  by exists k.
Defined.

(** Without a settled load, the state does not become [loaded] and
    no call returns. *)
Lemma unsettled_step e g g' :
  state g ≠ loaded → (∀ c, calls g !! c ≠ Some Returned) →
  (∀ k ok, e ≠ Settled k ok) →
  step e g = Some g' →
  state g' ≠ loaded ∧ ∀ c, calls g' !! c ≠ Some Returned.
Proof.
  intros Hstate Hnone Hev Hstep.
  destruct e as [c | c | c ok]; cbn in Hstep.
  - destruct (calls g !! c) eqn:Hc; [done |]. simplify_eq.
    unfold enter. destruct (state g) eqn:Hs; [| | done]; cbn; rewrite ?Hs;
      (split; [done |]); intros x;
      (destruct (decide (c = x)) as [-> | Hne];
       [by rewrite lookup_insert_eq | by rewrite lookup_insert_ne]).
  - destruct (calls g !! c) as [[] |] eqn:Hc; try done. simplify_eq.
    cbn. split; [done |]. intros x.
    destruct (decide (c = x)) as [-> | Hne];
      [by rewrite lookup_insert_eq | by rewrite lookup_insert_ne].
  - by destruct (Hev c ok).
Qed.

(** X5. The gate holds: in any schedule from the initial gate, a call
    of [waitForFonts] has returned only if some font load has settled
    before, fulfilled or rejected. *)
Theorem no_return_before_a_load_settles schedule g c :
  run schedule init = Some g →
  calls g !! c = Some Returned →
  ∃ k ok, Settled k ok ∈ schedule.
Proof.
  assert (Hgen : ∀ g0, state g0 ≠ loaded → (∀ x, calls g0 !! x ≠ Some Returned) →
            run schedule g0 = Some g → calls g !! c = Some Returned →
            ∃ k ok, Settled k ok ∈ schedule).
  { induction schedule as [| e schedule IH]; intros g0 Hstate Hnone Hrun Hc.
    - cbn in Hrun. simplify_eq. by destruct (Hnone c).
    - cbn [run] in Hrun. destruct (step e g0) as [g1 |] eqn:Hstep; [| done].
      destruct e as [x | x | k ok].
      + assert (Hev : ∀ k ok, Call x ≠ Settled k ok) by done.
        destruct (unsettled_step _ _ _ Hstate Hnone Hev Hstep) as [Hs1 Hn1].
        destruct (IH g1 Hs1 Hn1 Hrun Hc) as (k & ok & Hin). exists k, ok. by right.
      + assert (Hev : ∀ k ok, Imported x ≠ Settled k ok) by done.
        destruct (unsettled_step _ _ _ Hstate Hnone Hev Hstep) as [Hs1 Hn1].
        destruct (IH g1 Hs1 Hn1 Hrun Hc) as (k & ok & Hin). exists k, ok. by right.
      + exists k, ok. by left. }
  intros Hrun Hc. by apply (Hgen init).
Qed.

Lemma no_return_before_a_load_settles_witness :
  ∃ g, run [Call 0; Imported 0; Settled 0 false] init = Some g ∧
    calls g !! 0 = Some Returned ∧
    ∃ k ok, Settled k ok ∈ [Call 0; Imported 0; Settled 0 false].
Proof.
  eexists. split; [reflexivity |]. split; [reflexivity |].
  apply (no_return_before_a_load_settles [Call 0; Imported 0; Settled 0 false] _ 0
           eq_refl eq_refl).
Defined.

(** X6. A font load that fails is not an error of the gate: it
    leaves the gate exactly as a load that succeeds does, with the state
    [loaded] and the same calls returned, except that one warning has
    been logged. *)
Theorem load_failure_is_not_fatal c g :
  calls g !! c = Some AwaitLoad →
  ∃ g1 g2,
    step (Settled c true) g = Some g1 ∧ step (Settled c false) g = Some g2 ∧
    state g1 = loaded ∧ state g2 = loaded ∧
    calls g2 = calls g1 ∧ waitlist g2 = waitlist g1 ∧ loads g2 = loads g1 ∧
    warnings g1 = warnings g ∧ warnings g2 = S (warnings g).
Proof.
  intros Hc. exists (after_load c true g), (after_load c false g).
  cbn [step]. rewrite Hc.
  destruct (after_load_spec c true g) as (Hs1 & Hw1 & Hl1 & Hn1 & Hcalls1).
  destruct (after_load_spec c false g) as (Hs2 & Hw2 & Hl2 & Hn2 & Hcalls2).
  cbn zeta in *.
  do 4 (split; [done |]). split; [| split; [| split]].
  - apply map_eq. intros x. by rewrite Hcalls1, Hcalls2.
  - by rewrite Hw1, Hw2.
  - by rewrite Hl1, Hl2.
  - done.
Qed.

Lemma load_failure_is_not_fatal_witness :
  ∃ g, run [Call 0; Imported 0; Call 1] init = Some g ∧
    calls g !! 0 = Some AwaitLoad ∧
    ∃ g2, step (Settled 0 false) g = Some g2 ∧ state g2 = loaded.
Proof.
  eexists. split; [reflexivity |]. split; [reflexivity |].
  match goal with
  | |- ∃ g2, step _ ?g = Some g2 ∧ _ =>
      destruct (load_failure_is_not_fatal 0 g eq_refl)
        as (g1 & g2 & _ & Hstep & _ & Hstate & _)
  end.
  exists g2. split; [exact Hstep | exact Hstate].
Defined.

Lemma one_load_when_import_comes_first_witness :
  ∃ g,
    run (Call 0 :: Imported 0 :: [Call 1; Call 2; Settled 0 true; Call 3]) init = Some g ∧
    loads g = [0].
Proof.
  eexists. split; [reflexivity |].
  apply (one_load_when_import_comes_first 0 [Call 1; Call 2; Settled 0 true; Call 3]).
  reflexivity.
Defined.

(** One turn of the event loop on a gate that is [loaded] and has no
    call at its import. *)
Lemma loaded_step e g g' :
  consistent g → state g = loaded → (∀ c, calls g !! c ≠ Some AwaitImport) →
  step e g = Some g' →
  state g' = loaded ∧ (∀ c, calls g' !! c ≠ Some AwaitImport) ∧ loads g' = loads g ∧
  (∀ c, calls g !! c = Some Returned → calls g' !! c = Some Returned) ∧
  (∀ c, calls g !! c = None →
     if decide (e = Call c) then calls g' !! c = Some Returned else calls g' !! c = None).
Proof.
  intros (Hlist & _ & _) Hstate Hnone Hstep.
  destruct e as [c | c | c ok]; cbn in Hstep.
  - destruct (calls g !! c) eqn:Hc; [done |]. simplify_eq.
    unfold enter. rewrite Hstate. cbn.
    split; [done |]. split; [| split; [done | split]].
    + intros x. destruct (decide (c = x)) as [-> | Hne];
        [by rewrite lookup_insert_eq | by rewrite lookup_insert_ne].
    + intros x Hx. rewrite lookup_insert_ne; [done |]. intros ->. by rewrite Hc in Hx.
    + intros x Hx. destruct (decide (Call c = Call x)) as [Heq | Hne].
      * simplify_eq. by rewrite lookup_insert_eq.
      * rewrite lookup_insert_ne; [done |]. by intros ->.
  - destruct (calls g !! c) as [[] |] eqn:Hc; try done. by destruct (Hnone c).
  - destruct (calls g !! c) as [[] |] eqn:Hc; try done. simplify_eq.
    destruct (after_load_spec c ok g) as (Hs & _ & Hl & _ & Hcalls).
    cbn zeta in Hs, Hl, Hcalls.
    split; [done |]. split; [| split; [done | split]].
    + intros x. rewrite Hcalls. destruct (decide (x = c)); [done |].
      destruct (decide (x ∈ waitlist g)); [done | apply Hnone].
    + intros x Hx. rewrite Hcalls. destruct (decide (x = c)); [done |].
      by destruct (decide (x ∈ waitlist g)).
    + intros x Hx. rewrite decide_False by done. rewrite Hcalls.
      destruct (decide (x = c)) as [-> | Hne]; [by rewrite Hc in Hx |].
      destruct (decide (x ∈ waitlist g)) as [Hin | Hout]; [| done].
      destruct (Hlist x Hin) as [H | H]; by rewrite Hx in H.
Qed.

Lemma loaded_run schedule g g' :
  consistent g → state g = loaded → (∀ c, calls g !! c ≠ Some AwaitImport) →
  run schedule g = Some g' →
  state g' = loaded ∧ loads g' = loads g ∧
  (∀ c, calls g !! c = Some Returned → calls g' !! c = Some Returned) ∧
  (∀ c, calls g !! c = None → Call c ∈ schedule → calls g' !! c = Some Returned).
Proof.
  revert g. induction schedule as [| e schedule IH]; intros g Hg Hstate Hnone Hrun.
  - cbn in Hrun. simplify_eq. repeat split; try done.
    intros c _ Hin. by apply elem_of_nil in Hin.
  - cbn [run] in Hrun. destruct (step e g) as [g1 |] eqn:Hstep; [| done].
    destruct (loaded_step _ _ _ Hg Hstate Hnone Hstep) as (Hs1 & Hn1 & Hl1 & Hret1 & Hnew1).
    destruct (IH g1 (step_consistent _ _ _ Hg Hstep) Hs1 Hn1 Hrun)
      as (Hs & Hl & Hret & Hnew).
    split; [done |]. split; [by rewrite Hl |]. split.
    + intros c Hc. by apply Hret, Hret1.
    + intros c Hc Hin. specialize (Hnew1 c Hc).
      destruct (decide (e = Call c)) as [-> | Hne].
      * by apply Hret.
      * apply Hnew; [done |]. apply elem_of_cons in Hin as [Heq | Hin]; [| done].
        by destruct Hne.
Qed.

(** X8. Once the gate is [loaded] and no call is left at its import,
    it stays so: whatever is scheduled next, the state remains [loaded],
    no further load is started, and every new call returns at once. *)
Theorem loaded_gate_returns_at_once earlier later g g' c :
  run earlier init = Some g →
  state g = loaded → (∀ x, calls g !! x ≠ Some AwaitImport) →
  run later g = Some g' →
  state g' = loaded ∧ loads g' = loads g ∧
  (calls g !! c = None → Call c ∈ later → calls g' !! c = Some Returned).
Proof.
  intros Hearlier Hstate Hnone Hlater.
  pose proof (run_consistent _ _ _ init_consistent Hearlier) as Hg.
  destruct (loaded_run _ _ _ Hg Hstate Hnone Hlater) as (Hs & Hl & _ & Hnew).
  split; [done |]. split; [done |]. apply Hnew.
Qed.

Lemma loaded_gate_returns_at_once_witness :
  ∃ g g',
    run [Call 0; Imported 0; Call 1; Settled 0 true] init = Some g ∧
    state g = loaded ∧ (∀ x, calls g !! x ≠ Some AwaitImport) ∧
    run [Call 2; Call 3] g = Some g' ∧
    calls g !! 2 = None ∧ Call 2 ∈ [Call 2; Call 3] ∧
    calls g' !! 2 = Some Returned.
Proof.
  eexists _, _.
  split; [reflexivity |]. split; [reflexivity |].
  match goal with
  | |- (∀ x, calls ?g !! x ≠ _) ∧ run ?later _ = Some ?g' ∧ _ =>
      assert (Hnone : ∀ x, calls g !! x ≠ Some AwaitImport)
  end.
  { intros x. cbn.
    destruct (decide (x = 0)) as [-> | H0]; [by vm_compute |].
    destruct (decide (x = 1)) as [-> | H1]; [by vm_compute |].
    rewrite !lookup_insert_ne by done. by rewrite lookup_empty. }
  split; [exact Hnone |]. split; [reflexivity |].
  split; [reflexivity |]. split; [by left |].
  apply (loaded_gate_returns_at_once [Call 0; Imported 0; Call 1; Settled 0 true]
           [Call 2; Call 3] _ _ 2 eq_refl eq_refl Hnone eq_refl);
    [reflexivity | by left].
Defined.

End FontGateCoverage.


(** * Further properties of the component instance *)
Section ViewCoverage.
Import Patch View.

Implicit Types (v : view) (t : Terminal) (a : action) (acts : list action).

(** ** Keyboard shortcuts *)

(** X9. The key handler either lets the key through, returning [true]
    and dispatching nothing, or takes it, returning [false] and
    dispatching exactly one [data] event of one byte.  It takes a key
    only when the platform's own modifier is the only one held (Meta
    without Ctrl on a Mac, Ctrl without Meta elsewhere, never with Alt),
    and the byte is then the one that goes with the key: 01 for
    ArrowLeft, 05 for ArrowRight, 15 (hexadecimal) for Backspace. *)
Theorem shortcut_is_sound mac (event : KeyboardEvent) v :
  (customKeyEventHandler mac event v = (v, true)) ∨
  (metaKey event = mac ∧ ctrlKey event = negb mac ∧ altKey event = false ∧
   ∃ b, (key event, b) ∈ shortcuts ∧
     customKeyEventHandler mac event v = (dispatch (Data [b]) v, false)).
Proof.
  unfold customKeyEventHandler, shortcuts.
  destruct mac, (metaKey event), (ctrlKey event), (altKey event); cbn;
    try (by left);
    repeat case_decide; try (by left); right; repeat split;
    match goal with
    | H : key event = _ |- _ => rewrite H
    end; eexists; (split; [| reflexivity]); set_solver.
Qed.

(** X10. Conversely, with the platform's own modifier as the only
    one held, each of the three keys is taken: its byte is dispatched as
    one [data] event and the engine is told to leave the key alone. *)
Theorem shortcut_is_complete mac (event : KeyboardEvent) v (b : Z) :
  metaKey event = mac → ctrlKey event = negb mac → altKey event = false →
  (key event, b) ∈ shortcuts →
  customKeyEventHandler mac event v = (dispatch (Data [b]) v, false).
Proof.
  intros Hmeta Hctrl Halt Hkey.
  unfold customKeyEventHandler. rewrite Hmeta, Hctrl, Halt.
  unfold shortcuts in Hkey.
  repeat (apply elem_of_cons in Hkey as [Hkey | Hkey]);
    [| | | by apply elem_of_nil in Hkey];
    injection Hkey as -> ->; by destruct mac.
Qed.

Lemma shortcut_is_complete_witness :
  customKeyEventHandler true
    {| metaKey := true; ctrlKey := false; altKey := false; key := "Backspace" |} fresh
  = (dispatch (Data [21%Z]) fresh, false).
Proof.
  apply (shortcut_is_complete true
           {| metaKey := true; ctrlKey := false; altKey := false; key := "Backspace" |}
           fresh 21%Z eq_refl eq_refl eq_refl).
  unfold shortcuts. set_solver.
Defined.

(** ** The size of the engine *)

Lemma sizes_send c t :
  sizes (send c t) =
  sizes t ++ match c with Call_resize c r => [(c, r)] | _ => [] end.
Proof. unfold sizes. cbn. rewrite omap_app. by destruct c. Qed.

Lemma perform_keeps_size_in_step a v t :
  term v = Some t → last (sizes t) = Some (cols v, rows v) →
  ∃ t', term (perform a v) = Some t' ∧
    last (sizes t') = Some (cols (perform a v), rows (perform a v)).
Proof.
  intros Hterm Hlast.
  destruct a;
    cbn -[mousedown click handleDrag handleDragEnd write reactive_resize subscribed sizes].
  - unfold write. rewrite Hterm. eexists. split; [done |].
    by rewrite sizes_send, app_nil_r.
  - unfold reactive_resize. case_decide as Hsame; cbn -[sizes]; rewrite Hterm.
    + destruct Hsame as [-> ->]. by exists t.
    + eexists. split; [done |]. by rewrite sizes_send, last_snoc.
  - unfold reactive_resize. rewrite Hterm. eexists. split; [done |].
    by rewrite sizes_send, last_snoc.
  - exists t. destruct (mounted v); [| done].
    destruct (mousedown_same_engine target event v) as (-> & _ & -> & -> & _). by rewrite Hterm.
  - exists t. destruct (mounted v); [| done].
    destruct (click_same_engine target v) as (-> & _ & -> & -> & _). by rewrite Hterm.
  - exists t. destruct (mounted v); [| done].
    destruct (handleDrag_same_engine event false v) as (-> & _ & -> & -> & _). by rewrite Hterm.
  - exists t. destruct (mounted v); [| done].
    destruct (handleDragEnd_same_engine event v) as (-> & _ & -> & -> & _). by rewrite Hterm.
  - exists t. destruct (mounted v); [| done].
    destruct (handleDragEnd_same_engine event v) as (-> & _ & -> & -> & _). by rewrite Hterm.
  - exists t. by destruct (subscribed _ v).
  - exists t. by destruct (subscribed _ v).
  - exists t. by destruct (subscribed _ v).
Qed.

Lemma exec_keeps_size_in_step acts v t :
  term v = Some t → last (sizes t) = Some (cols v, rows v) →
  ∃ t', term (exec acts v) = Some t' ∧
    last (sizes t') = Some (cols (exec acts v), rows (exec acts v)).
Proof.
  revert v t. induction acts as [| a acts IH]; intros v t Hterm Hlast.
  - by exists t.
  - rewrite exec_cons.
    destruct (perform_keeps_size_in_step a v t Hterm Hlast) as (t1 & Hterm1 & Hlast1).
    by eapply IH.
Qed.

(** X11. Once the engine is up it is kept at the size of the view:
    after the last turn of [onMount] and any further writes, size
    changes, re-runs of the reactive statement, mouse events and engine
    notifications, the last size the engine was given is the current
    [cols] and [rows]. *)
Theorem engine_size_follows_props T I w v after :
  ∃ w1 v1 t2,
    onMount (mkTerm T I) w v = (w1, v1, Normal tt) ∧
    term (exec after v1) = Some t2 ∧
    last (sizes t2) = Some (cols (exec after v1), rows (exec after v1)).
Proof.
  destruct (onMount_completes T I w v) as (w1 & t1 & Hrun & Hrecv).
  destruct (exec_keeps_size_in_step after (set_term (Some t1) (set_loaded true v)) t1)
    as (t2 & Hterm2 & Hlast2).
  - done.
  - unfold sizes. rewrite Hrecv, !omap_app, sizes_writes. by cbn.
  - by exists w1, (set_term (Some t1) (set_loaded true v)), t2.
Qed.

(** ** Drags *)

Lemma move_count_snoc (events : list outbound) e :
  move_count (events ++ [e]) = move_count events + Nat.b2n (is_move e).
Proof.
  unfold move_count. rewrite List.filter_app, length_app. cbn.
  by destruct (is_move e).
Qed.

Lemma header_presses_cons a acts :
  header_presses (a :: acts) = Nat.b2n (is_header_press a) + header_presses acts.
Proof. unfold header_presses. cbn. by destruct (is_header_press a). Qed.

(** One action costs a header press when it starts a drag, and a drag
    pays for at most one [move]. *)
Lemma perform_move_budget a v :
  move_count (dispatched (perform a v)) + Nat.b2n (dragging (perform a v))
  ≤ move_count (dispatched v) + Nat.b2n (dragging v) + Nat.b2n (is_header_press a).
Proof.
  destruct a; cbn -[move_count].
  - unfold write. destruct (term v); cbn -[move_count]; lia.
  - unfold reactive_resize. case_decide; cbn -[move_count]; [lia |].
    destruct (term v); cbn -[move_count]; lia.
  - unfold reactive_resize. destruct (term v); cbn -[move_count]; lia.
  - destruct (mounted v); [| lia].
    destruct target; cbn -[move_count]; rewrite ?move_count_snoc; cbn; lia.
  - destruct (mounted v); [| lia].
    destruct target; cbn -[move_count]; rewrite ?move_count_snoc; cbn; lia.
  - destruct (mounted v); [| lia]. unfold handleDrag.
    destruct (dragging v) eqn:Hd; cbn -[move_count];
      rewrite ?move_count_snoc, ?Hd; cbn; lia.
  - destruct (mounted v); [| lia]. unfold handleDragEnd.
    destruct (dragging v) eqn:Hd; cbn -[move_count];
      rewrite ?move_count_snoc, ?Hd; cbn; lia.
  - destruct (mounted v); [| lia]. unfold handleDragEnd.
    destruct (dragging v) eqn:Hd; cbn -[move_count];
      rewrite ?move_count_snoc, ?Hd; cbn; lia.
  - destruct (subscribed _ v); cbn -[move_count]; rewrite ?move_count_snoc; cbn; lia.
  - destruct (subscribed _ v); cbn -[move_count]; rewrite ?move_count_snoc; cbn; lia.
  - destruct (subscribed _ v); cbn -[move_count]; lia.
Qed.

(** X12. No [move] event comes out of nothing: over any sequence of
    actions, the [move] events dispatched, plus one if a drag is still
    on at the end, are at most as many as the presses on the header in
    that sequence, plus one if a drag was already on at the start.  So a
    view that starts idle has dispatched at most one [move] per press. *)
Theorem moves_bounded_by_header_presses acts v :
  move_count (dispatched (exec acts v)) + Nat.b2n (dragging (exec acts v))
  ≤ move_count (dispatched v) + Nat.b2n (dragging v) + header_presses acts.
Proof.
  revert v. induction acts as [| a acts IH]; intros v.
  - cbn -[move_count]. lia.
  - rewrite exec_cons, header_presses_cons.
    pose proof (IH (perform a v)). pose proof (perform_move_budget a v). lia.
Qed.

(** X13. A press on the header followed by a release, with no move
    in between, dispatches a [focus] and then one [move] whose delta is
    the release position minus the press position, (0,0) for a click in
    place, and leaves no drag on; this holds whether or not a drag was on
    before the press, and for a release by [mouseup] as by
    [mouseleave]. *)
Theorem press_and_release_moves v target (press release : MouseEvent) :
  mounted v = true → starts_drag target = true →
  let delta := Move (pageX release - pageX press) (pageY release - pageY press) in
  dispatched (exec [MouseDown target press; MouseUp release] v)
    = dispatched v ++ [Focus; delta] ∧
  dispatched (exec [MouseDown target press; MouseLeave release] v)
    = dispatched v ++ [Focus; delta] ∧
  dragging (exec [MouseDown target press; MouseUp release] v) = false ∧
  dragging (exec [MouseDown target press; MouseLeave release] v) = false.
Proof.
  intros Hm Htarget delta. subst delta.
  destruct v. cbn in Hm. subst.
  destruct target; try done; cbn; by rewrite <- !app_assoc.
Qed.

Lemma press_and_release_moves_witness :
  mounted fresh = true ∧ starts_drag TitleText = true ∧
  dispatched (exec [MouseDown TitleText (pointer 40 12); MouseUp (pointer 40 12)] fresh)
  = [Focus; Move 0 0].
Proof.
  split; [reflexivity |]. split; [reflexivity |].
  apply (press_and_release_moves fresh TitleText (pointer 40 12) (pointer 40 12)
           eq_refl eq_refl).
Defined.

(** X14. On a mounted view, a click on the close button dispatches
    exactly one [close] event and changes nothing else, whatever the
    drag state; a click anywhere else dispatches nothing; and the whole
    gesture on the close button of an idle view (press, release, click)
    dispatches the [close] event alone: no [focus], no [move], no drag
    started. *)
Theorem close_button_closes v target (press release : MouseEvent) :
  mounted v = true →
  perform (Click CloseButton) v = dispatch Close v ∧
  (target ≠ CloseButton → perform (Click target) v = v) ∧
  (dragging v = false →
   exec [MouseDown CloseButton press; MouseUp release; Click CloseButton] v
   = dispatch Close v).
Proof.
  intros Hm. split; [| split].
  - cbn. by rewrite Hm.
  - intros Hother. cbn [perform]. rewrite Hm. by destruct target.
  - intros Hidle. destruct v. cbn in Hm, Hidle. by subst.
Qed.

Lemma close_button_closes_witness :
  mounted fresh = true ∧ TermEl ≠ CloseButton ∧ dragging fresh = false ∧
  perform (Click TermEl) fresh = fresh ∧
  dispatched
    (exec [MouseDown CloseButton (pointer 8 8); MouseUp (pointer 8 8); Click CloseButton]
       fresh)
  = [Close].
Proof.
  destruct (close_button_closes fresh TermEl (pointer 8 8) (pointer 8 8) eq_refl)
    as (_ & Hother & Hgesture).
  split; [reflexivity |]. split; [discriminate |]. split; [reflexivity |].
  split; [apply Hother; discriminate |].
  by rewrite (Hgesture eq_refl).
Defined.

(** ** Mounting *)

Lemma perform_sets_up_nothing a v t :
  term v = Some t →
  Forall (λ c, is_write_or_resize c = true) (received t) →
  ∃ t', term (perform a v) = Some t' ∧
    Forall (λ c, is_write_or_resize c = true) (received t').
Proof.
  intros Hterm Honly.
  assert (Hsend : ∀ c, is_write_or_resize c = true →
            Forall (λ c, is_write_or_resize c = true) (received (send c t))).
  { intros c Hc. cbn. apply Forall_app. split; [done | by constructor]. }
  destruct a;
    cbn -[mousedown click handleDrag handleDragEnd write reactive_resize subscribed].
  - unfold write. rewrite Hterm. eexists. split; [done |]. by apply Hsend.
  - unfold reactive_resize. case_decide; cbn; rewrite Hterm.
    + by exists t.
    + eexists. split; [done |]. by apply Hsend.
  - unfold reactive_resize. rewrite Hterm. eexists. split; [done |]. by apply Hsend.
  - exists t. destruct (mounted v); [| done].
    destruct (mousedown_same_engine target event v) as (-> & _). by rewrite Hterm.
  - exists t. destruct (mounted v); [| done].
    destruct (click_same_engine target v) as (-> & _). by rewrite Hterm.
  - exists t. destruct (mounted v); [| done].
    destruct (handleDrag_same_engine event false v) as (-> & _). by rewrite Hterm.
  - exists t. destruct (mounted v); [| done].
    destruct (handleDragEnd_same_engine event v) as (-> & _). by rewrite Hterm.
  - exists t. destruct (mounted v); [| done].
    destruct (handleDragEnd_same_engine event v) as (-> & _). by rewrite Hterm.
  - exists t. by destruct (subscribed _ v).
  - exists t. by destruct (subscribed _ v).
  - exists t. by destruct (subscribed _ v).
Qed.

Lemma exec_sets_up_nothing acts v t :
  term v = Some t →
  Forall (λ c, is_write_or_resize c = true) (received t) →
  ∃ t', term (exec acts v) = Some t' ∧
    Forall (λ c, is_write_or_resize c = true) (received t').
Proof.
  revert v t. induction acts as [| a acts IH]; intros v t Hterm Honly.
  - by exists t.
  - rewrite exec_cons.
    destruct (perform_sets_up_nothing a v t Hterm Honly) as (t1 & Hterm1 & Honly1).
    by eapply IH.
Qed.

(** X15. When the engine lacks its internal objects and the patch
    has not been applied yet, the last turn of [onMount] ends with the
    [TypeError] of [patchXTerm]: the engine has been stored in [term]
    and [loaded] is unchanged.  The re-run of the reactive statement
    that the assignment to [term] brings about then sends this engine
    the current size.  Whatever happens afterwards, the engine is never
    opened, subscribed to or given the queue: all it has received are
    [resize] calls and the chunks written after the failed mount, in
    order, and the queued chunks stay in the queue. *)
Theorem mount_failure_strands_queue xterm w v after :
  patched w = false → has_internals xterm = false →
  ∃ w1 v1 t2,
    onMount xterm w v = (w1, v1, Throw TypeError) ∧
    loaded v1 = loaded v ∧
    term (perform Update v1)
      = Some {| internal := xterm; received := [Call_resize (cols v) (rows v)] |} ∧
    term (exec after v1) = Some t2 ∧
    Forall (λ c, is_write_or_resize c = true) (received t2) ∧
    chunks t2 = written after ∧
    preloadBuffer (exec after v1) = preloadBuffer v.
Proof.
  intros Hfresh Hnone. unfold onMount.
  rewrite (patchXTerm_no_internals xterm w Hfresh Hnone).
  set (v1 := set_term (Some {| internal := xterm; received := [] |}) v).
  destruct (exec_with_engine after v1 {| internal := xterm; received := [] |} eq_refl)
    as (t2 & Hterm2 & Hchunks2 & Hq2).
  destruct (exec_sets_up_nothing after v1 {| internal := xterm; received := [] |} eq_refl)
    as (t2' & Hterm2' & Honly2); [by constructor |].
  assert (t2' = t2) as -> by congruence.
  exists {| patched := true; methods := methods w |}, v1, t2.
  by repeat split.
Qed.

Lemma mount_failure_strands_queue_witness :
  patched stock = false ∧ has_internals {| _core := None |} = false ∧
  ∃ w1 v1 t2,
    onMount {| _core := None |} stock (exec [Write "ls"] fresh) = (w1, v1, Throw TypeError) ∧
    term (exec [Update; Write "pwd"] v1) = Some t2 ∧
    chunks t2 = ["pwd"] ∧
    preloadBuffer (exec [Update; Write "pwd"] v1) = ["ls"].
Proof.
  split; [reflexivity |]. split; [reflexivity |].
  destruct (mount_failure_strands_queue {| _core := None |} stock
              (exec [Write "ls"] fresh) [Update; Write "pwd"] eq_refl eq_refl)
    as (w1 & v1 & t2 & Hrun & _ & _ & Hterm & _ & Hchunks & Hq).
  exists w1, v1, t2. by repeat split.
Defined.

Lemma flush_internal q t : internal (flush q t) = internal t.
Proof.
  revert t. induction q as [| data q IH]; intros t; [done |].
  change (flush (data :: q) t) with (flush q (send (Call_write data) t)).
  by rewrite IH.
Qed.

(** With the guard set, the callback runs to its end on any engine. *)
Lemma onMount_guarded xterm w v :
  patched w = true →
  ∃ t,
    onMount xterm w v = (w, set_term (Some t) (set_loaded true v), Normal tt) ∧
    internal t = xterm ∧
    chunks t = preloadBuffer v.
Proof.
  intros Hdone. unfold onMount. rewrite (patchXTerm_guard xterm w Hdone).
  eexists. split; [reflexivity |]. split.
  - cbn -[flush]. by rewrite flush_internal.
  - unfold chunks. cbn -[flush]. rewrite flush_received. cbn.
    rewrite !omap_app, chunks_writes. cbn. by rewrite !app_nil_r.
Qed.

(** X16. The first view whose engine comes up sets the guard, and
    from then on mounting a view leaves the module state alone: the last
    turn of [onMount] of any later view, whatever its engine instance,
    completes, returns the module state it found, and gives that view's
    engine that view's own queue. *)
Theorem later_mounts_keep_module_state T I w v xterm' v' :
  ∃ w1 v1 v1' t',
    onMount (mkTerm T I) w v = (w1, v1, Normal tt) ∧
    patched w1 = true ∧
    onMount xterm' w1 v' = (w1, v1', Normal tt) ∧
    term v1' = Some t' ∧ internal t' = xterm' ∧ chunks t' = preloadBuffer v'.
Proof.
  destruct (patchXTerm_completes T I w) as [w1 Hpatch].
  assert (Hguard : patched w1 = true).
  { pose proof (patchXTerm_sets_patched T I w) as H. by rewrite Hpatch in H. }
  destruct (onMount_completes T I w v) as (w1' & t1 & Hrun & _).
  assert (w1' = w1) as ->.
  { unfold onMount in Hrun. rewrite Hpatch in Hrun. by simplify_eq. }
  destruct (onMount_guarded xterm' w1 v' Hguard) as (t' & Hrun' & Hint' & Hchunks').
  exists w1, (set_term (Some t1) (set_loaded true v)),
    (set_term (Some t') (set_loaded true v')), t'.
  split; [exact Hrun |]. split; [exact Hguard |]. split; [exact Hrun' |].
  split; [reflexivity |]. split; [exact Hint' | exact Hchunks'].
Qed.

(** ** Outbound bytes *)

Lemma code_points_ascii (data : code_units) :
  Forall (λ c, 0 ≤ c < 128)%Z data → code_points data = data.
Proof.
  induction 1 as [| c data Hc _ IH]; [done |].
  cbn [code_points].
  assert (is_lead c = false) as -> by (unfold is_lead; lia).
  assert (is_trail c = false) as -> by (unfold is_trail; lia).
  by rewrite IH.
Qed.

(** X18. For a string of code units below 128 the two outbound
    paths agree: [onData], which encodes as UTF-8, and [onBinary], which
    takes one byte per code unit, dispatch the same [data] event, whose
    bytes are the code units themselves. *)
Theorem ascii_data_same_on_both_paths (data : code_units) v :
  Forall (λ c, 0 ≤ c < 128)%Z data →
  on_data data v = dispatch (Data data) v ∧
  on_binary data v = dispatch (Data data) v.
Proof.
  intros Hascii. split.
  - unfold on_data, utf8_encode. rewrite (code_points_ascii data Hascii).
    f_equal. f_equal.
    induction Hascii as [| c data Hc _ IH]; [done |].
    cbn [map concat]. rewrite IH. unfold utf8_of_code_point.
    assert ((c <? 128)%Z = true) as -> by lia. done.
  - unfold on_binary. rewrite Buffer_from_binary_bytes; [done |].
    eapply Forall_impl; [exact Hascii |]. cbn. lia.
Qed.

Lemma ascii_data_same_on_both_paths_witness :
  Forall (λ c, 0 ≤ c < 128)%Z [108; 115; 13]%Z ∧
  on_data [108; 115; 13]%Z fresh = on_binary [108; 115; 13]%Z fresh.
Proof.
  assert (Hascii : Forall (λ c, 0 ≤ c < 128)%Z [108; 115; 13]%Z)
    by (repeat constructor; lia).
  split; [exact Hascii |].
  destruct (ascii_data_same_on_both_paths [108; 115; 13]%Z fresh Hascii) as [-> ->].
  reflexivity.
Defined.

End ViewCoverage.
